(** * profuse: the circuit breaker of [src/profuse.ts]

    A shallow embedding of the [CircuitBreaker] class and the properties of
    its sliding-window history, its mode state machine, its concurrency gate
    and its two call wrappers.

    Conventions of the embedding.
    - A JavaScript [number] that the class only ever counts with (window,
      history runs, concurrency, millisecond timestamps) is a mathematical
      integer [Z]; this is exact below 2^53.
    - A quotient of two such integers ([successRate]) and [tripRate] are
      exact rationals; [0/0] is [NaN] as in JavaScript.  The IEEE rounding of
      [score / count] and of the literal [tripRate] is left out.
    - [Date.now()] is an argument of every method that reads the clock; a
      wrapper takes one argument per read: [gate] for the read inside
      [trip()] when the concurrency gate trips, [now] for the read inside
      [check()], [later] for the read inside [trip()] when the outcome is
      recorded.
    - The optional [logger] is a flag; what it is handed is appended to the
      field [logged]. *)

From Stdlib Require Import ZArith QArith List String Bool Lia.
Import ListNotations.

Local Open Scope Z_scope.

(** ** JavaScript numbers produced by a division *)

Module JS.

Inductive Number : Type :=
| NaN
| PosInfinity
| NegInfinity
| Finite (q : Q).

(** [a / b] on integer-valued operands; the finite quotient is kept in
    lowest terms so that equal numbers are equal terms. *)
Definition div (a b : Z) : Number :=
  match b with
  | Z0 => match a with
          | Z0 => NaN
          | Zpos _ => PosInfinity
          | Zneg _ => NegInfinity
          end
  | Zpos p => Finite (Qred (a # p))
  | Zneg p => Finite (Qred (- a # p))
  end.

(** [x < t]: every comparison with [NaN] is false. *)
Definition lt (x : Number) (t : Q) : bool :=
  match x with
  | NaN => false
  | PosInfinity => false
  | NegInfinity => true
  | Finite q => negb (Qle_bool t q)
  end.

(** The number lies in the closed unit interval. *)
Definition in_unit_interval (x : Number) : Prop :=
  match x with
  | Finite q => (0 <= q)%Q /\ (q <= 1)%Q
  | _ => False
  end.

End JS.

(** ** Data model *)

Definition DEFAULT_CHECK_INTERVAL : Z := 30000.
Definition DEFAULT_MAX_CONCURRENT_REQUESTS : Z := 10 ^ 6.
Definition DEFAULT_TRIP_RATE : Q := 9 # 10.
Definition DEFAULT_WINDOW : Z := 100.

Inductive Mode : Type := Normal | Tripped | Probation.

Definition Mode_eqb (a b : Mode) : bool :=
  match a, b with
  | Normal, Normal | Tripped, Tripped | Probation, Probation => true
  | _, _ => false
  end.

(** [CircuitBreakerOptions]: every field is optional. *)
Record CircuitBreakerOptions : Type := mkOptions {
  opt_maxConcurrent : option Z;
  opt_tripRate : option Q;
  opt_window : option Z;
  opt_checkInterval : option Z;
  opt_logger : bool
}.

Definition no_options : CircuitBreakerOptions :=
  mkOptions None None None None false.

(** What [toString()] renders: name, mode, success rate, concurrency. *)
Record Description : Type := mkDescription {
  d_name : string;
  d_mode : Mode;
  d_successRate : JS.Number;
  d_concurrent : Z
}.

Inductive LogMessage : Type :=
| Tripping (d : Description)
| Resetting (d : Description).

Record CircuitBreaker : Type := mkCircuitBreaker {
  name : string;
  mode : Mode;
  checkInterval : Z;
  lastCheck : Z;
  concurrent : Z;
  maxConcurrent : Z;
  history : list Z;
  window : Z;
  tripRate : Q;
  logger : bool;
  logged : list LogMessage
}.

Definition set_mode (m : Mode) (b : CircuitBreaker) : CircuitBreaker :=
  mkCircuitBreaker (name b) m (checkInterval b) (lastCheck b) (concurrent b)
    (maxConcurrent b) (history b) (window b) (tripRate b) (logger b) (logged b).

Definition set_lastCheck (t : Z) (b : CircuitBreaker) : CircuitBreaker :=
  mkCircuitBreaker (name b) (mode b) (checkInterval b) t (concurrent b)
    (maxConcurrent b) (history b) (window b) (tripRate b) (logger b) (logged b).

Definition set_concurrent (c : Z) (b : CircuitBreaker) : CircuitBreaker :=
  mkCircuitBreaker (name b) (mode b) (checkInterval b) (lastCheck b) c
    (maxConcurrent b) (history b) (window b) (tripRate b) (logger b) (logged b).

Definition set_history (h : list Z) (b : CircuitBreaker) : CircuitBreaker :=
  mkCircuitBreaker (name b) (mode b) (checkInterval b) (lastCheck b) (concurrent b)
    (maxConcurrent b) h (window b) (tripRate b) (logger b) (logged b).

(** [this.logger(message)] when a logger is configured. *)
Definition log (m : LogMessage) (b : CircuitBreaker) : CircuitBreaker :=
  if logger b then
    mkCircuitBreaker (name b) (mode b) (checkInterval b) (lastCheck b) (concurrent b)
      (maxConcurrent b) (history b) (window b) (tripRate b) (logger b) (logged b ++ [m])
  else b.

(** ** The sliding-window tracker *)

(** The loop of [get successRate]: [i] walks the array while
    [count <= window]; the result is the pair [(score, count)]. *)
Fixpoint successRate_loop (w : Z) (h : list Z) (score count : Z) : Z * Z :=
  match h with
  | [] => (score, count)
  | x :: rest =>
      if count <=? w then
        if x <? 0 then successRate_loop w rest score (count + - x)
        else successRate_loop w rest (score + x) (count + x)
      else (score, count)
  end.

Definition successRate (b : CircuitBreaker) : JS.Number :=
  let '(score, count) := successRate_loop (window b) (history b) 0 0 in
  JS.div score count.

Definition toString (b : CircuitBreaker) : Description :=
  mkDescription (name b) (mode b) (successRate b) (concurrent b).

(** [clear()]: a perfect history, mode Normal. *)
Definition clear (b : CircuitBreaker) : CircuitBreaker :=
  set_mode Normal (set_history [window b] b).

(** The constructor: defaults, then the options that are defined, then
    [clear()].  Nothing is validated. *)
Definition new_CircuitBreaker (nm : string) (o : CircuitBreakerOptions) : CircuitBreaker :=
  clear (mkCircuitBreaker nm Normal
           (match opt_checkInterval o with Some c => c | None => DEFAULT_CHECK_INTERVAL end)
           0
           0
           (match opt_maxConcurrent o with Some c => c | None => DEFAULT_MAX_CONCURRENT_REQUESTS end)
           []
           (match opt_window o with Some c => c | None => DEFAULT_WINDOW end)
           (match opt_tripRate o with Some c => c | None => DEFAULT_TRIP_RATE end)
           (opt_logger o)
           []).

(** [trip()]. *)
Definition trip (now : Z) (b : CircuitBreaker) : CircuitBreaker :=
  let b1 := set_lastCheck now (set_mode Tripped b) in
  log (Tripping (toString b1)) b1.

(** First half of [addResult]: the newest run absorbs the result, or a new
    run is pushed when the sign flips.  On an empty array JavaScript reads
    [undefined] and stores [NaN]; that leaves the integer model: [None]. *)
Definition push_newest (result : Z) (h : list Z) : option (list Z) :=
  match h with
  | [] => None
  | _ :: _ =>
      let last := List.last h 0 in
      if ((last >? 0) && (result <? 0)) || ((last <? 0) && (result >? 0))
      then Some (h ++ [result])
      else Some (removelast h ++ [last + result])
  end.

(** Second half: "drop the oldest count", shifting the run out at zero. *)
Definition drop_oldest (h : list Z) : option (list Z) :=
  match h with
  | [] => None
  | x :: rest =>
      let x' := if x <? 0 then x + 1 else x - 1 in
      Some (if x' =? 0 then rest else x' :: rest)
  end.

Definition record_result (result : Z) (h : list Z) : option (list Z) :=
  match push_newest result h with
  | Some h1 => drop_oldest h1
  | None => None
  end.

(** [addResult(result)]: update the history, then the mode. *)
Definition addResult (result : Z) (now : Z) (b : CircuitBreaker) : option CircuitBreaker :=
  match record_result result (history b) with
  | None => None
  | Some h =>
      let b1 := set_history h b in
      if (result >? 0) && Mode_eqb (mode b1) Probation then
        Some (set_mode Normal (log (Resetting (toString b1)) b1))
      else if result <? 0 then
        if Mode_eqb (mode b1) Probation || JS.lt (successRate b1) (tripRate b1)
        then Some (trip now b1)
        else Some b1
      else Some b1
  end.

(** ** The concurrency gate and the admission check *)

Definition addConcurrent (now : Z) (b : CircuitBreaker) : CircuitBreaker :=
  let b1 := set_concurrent (concurrent b + 1) b in
  if concurrent b1 >? maxConcurrent b1 then trip now b1 else b1.

Definition finishedConcurrent (b : CircuitBreaker) : CircuitBreaker :=
  set_concurrent (concurrent b - 1) b.

(** [check()]: "okay to try?" *)
Definition check (now : Z) (b : CircuitBreaker) : bool * CircuitBreaker :=
  match mode b with
  | Tripped =>
      if lastCheck b + checkInterval b <=? now
      then (true, set_mode Probation b)
      else (false, b)
  | _ => (true, b)
  end.

(** ** The call wrappers *)

Definition Error : Type := string.

Definition tripped_error (b : CircuitBreaker) : Error :=
  String.append "Circuit breaker tripped: " (name b).

(** How the promise returned by the wrapped operation settles. *)
Inductive Promise (T : Type) : Type :=
| Resolves (v : T)
| Rejects (e : Error).
Arguments Resolves {T} v.
Arguments Rejects {T} e%_string.

(** The wrapped operation of [do]: it throws before returning, or returns
    a promise. *)
Inductive Operation (T : Type) : Type :=
| Throws (e : Error)
| Returns (p : Promise T).
Arguments Throws {T} e%_string.
Arguments Returns {T} p.

(** The wrapped operation of [doCallback]: it throws before calling back,
    or calls back once with an error or with a value. *)
Inductive CallbackOperation (T : Type) : Type :=
| CbThrows (e : Error)
| CbError (e : Error)
| CbValue (v : T).
Arguments CbThrows {T} e%_string.
Arguments CbError {T} e%_string.
Arguments CbValue {T} v.

(** What the caller observes. *)
Inductive Delivery (T : Type) : Type :=
| Value (v : T)
| Failure (e : Error).
Arguments Value {T} v.
Arguments Failure {T} e%_string.

Record Outcome (T : Type) : Type := mkOutcome {
  breaker : CircuitBreaker;
  invocations : nat;
  delivered : Delivery T
}.
Arguments mkOutcome {T}.
Arguments breaker {T}.
Arguments invocations {T}.
Arguments delivered {T}.

(** [do(f)], when nothing else touches the breaker between the call and the
    settling of [f()].  The clock is read up to three times: [gate] by the
    [trip()] of the concurrency gate, [now] by [check()], [later] when the
    outcome is recorded. *)
Definition do_ {T : Type} (f : Operation T) (gate now later : Z) (b : CircuitBreaker)
  : option (Outcome T) :=
  let b1 := addConcurrent gate b in
  let '(ok, b2) := check now b1 in
  if negb ok then
    let b3 := finishedConcurrent b2 in
    Some (mkOutcome b3 0%nat (Failure (tripped_error b3)))
  else
    match f with
    | Returns (Resolves rv) =>
        match addResult 1 later b2 with
        | Some b3 => Some (mkOutcome (finishedConcurrent b3) 1%nat (Value rv))
        | None => None
        end
    | Returns (Rejects error) | Throws error =>
        match addResult (-1) later b2 with
        | Some b3 => Some (mkOutcome (finishedConcurrent b3) 1%nat (Failure error))
        | None => None
        end
    end.

(** [doCallback(f, callback)] under the same reading.  A throw of [f]
    leaves [doCallback] as it is: no handler surrounds the call. *)
Definition doCallback {T : Type} (f : CallbackOperation T) (gate now later : Z)
           (b : CircuitBreaker)
  : option (Outcome T) :=
  let b1 := addConcurrent gate b in
  let '(ok, b2) := check now b1 in
  if negb ok then
    let b3 := finishedConcurrent b2 in
    Some (mkOutcome b3 0%nat (Failure (tripped_error b3)))
  else
    match f with
    | CbThrows error => Some (mkOutcome b2 1%nat (Failure error))
    | CbError error =>
        match addResult (-1) later b2 with
        | Some b3 => Some (mkOutcome (finishedConcurrent b3) 1%nat (Failure error))
        | None => None
        end
    | CbValue value =>
        match addResult 1 later b2 with
        | Some b3 => Some (mkOutcome (finishedConcurrent b3) 1%nat (Value value))
        | None => None
        end
    end.

(** ** Interleaved calls

    Several calls can be in flight: the synchronous prefix of a wrapper
    (gate, admission) and the continuation that records the outcome are
    separate steps of the one thread of control. *)

(** The prefix shared by [do] and [doCallback]: [true] when the operation is
    invoked.  [gate] is the clock as [trip()] reads it if the gate trips,
    [now] the clock as [check()] reads it afterwards. *)
Definition start (gate now : Z) (b : CircuitBreaker) : bool * CircuitBreaker :=
  let b1 := addConcurrent gate b in
  let '(ok, b2) := check now b1 in
  if negb ok then (false, finishedConcurrent b2) else (true, b2).

(** The continuation: [addResult(1)] or [addResult(-1)], then
    [finishedConcurrent()]. *)
Definition settle (success : bool) (now : Z) (b : CircuitBreaker) : option CircuitBreaker :=
  match addResult (if success then 1 else -1) now b with
  | Some b1 => Some (finishedConcurrent b1)
  | None => None
  end.

Inductive Event : Type :=
| CallStart (gate now : Z)
| CallSettle (success : bool) (now : Z)
| CallClear
| CallTrip (now : Z)
| CallCheck (now : Z).

Definition step (e : Event) (b : CircuitBreaker) : option CircuitBreaker :=
  match e with
  | CallStart gate now => Some (snd (start gate now b))
  | CallSettle success now => settle success now b
  | CallClear => Some (clear b)
  | CallTrip now => Some (trip now b)
  | CallCheck now => Some (snd (check now b))
  end.

Fixpoint run (es : list Event) (b : CircuitBreaker) : option CircuitBreaker :=
  match es with
  | [] => Some b
  | e :: rest =>
      match step e b with
      | Some b1 => run rest b1
      | None => None
      end
  end.

(** ** The history invariants *)

(** Sum of the absolute values of the runs. *)
Fixpoint magnitude (h : list Z) : Z :=
  match h with
  | [] => 0
  | x :: rest => Z.abs x + magnitude rest
  end.

(** No two adjacent runs share a sign. *)
Fixpoint alternating (h : list Z) : bool :=
  match h with
  | x :: (y :: _) as rest => negb (Z.sgn x =? Z.sgn y) && alternating rest
  | _ => true
  end.

Definition nonzero (x : Z) : bool := negb (x =? 0).

Definition history_ok (w : Z) (h : list Z) : bool :=
  (magnitude h =? w) && forallb nonzero h && alternating h.

(** The run-length decoding: one signed unit per outcome, oldest first. *)
Definition units (h : list Z) : list Z :=
  flat_map (fun x => repeat (Z.sgn x) (Z.abs_nat x)) h.

(** Sum of the success runs: the [score] of a full walk. *)
Fixpoint positives (h : list Z) : Z :=
  match h with
  | [] => 0
  | x :: rest => (if x <? 0 then 0 else x) + positives rest
  end.

(** The state invariant: a positive window and a well-formed history. *)
Definition well_formed (b : CircuitBreaker) : Prop :=
  0 < window b /\ history_ok (window b) (history b) = true.

(** The unit recorded by a settled call. *)
Definition unit_of (success : bool) : Z := if success then 1 else -1.

(** Whether the wrapped operation ends in a success, and what it hands to
    the caller. *)
Definition succeeds {T : Type} (f : Operation T) : bool :=
  match f with
  | Returns (Resolves _) => true
  | _ => false
  end.

Definition result_of {T : Type} (f : Operation T) : Delivery T :=
  match f with
  | Returns (Resolves rv) => Value rv
  | Returns (Rejects error) | Throws error => Failure error
  end.

(** The callback operation that behaves like a given promise operation. *)
Definition as_callback {T : Type} (f : Operation T) : CallbackOperation T :=
  match f with
  | Returns (Resolves rv) => CbValue rv
  | Returns (Rejects error) => CbError error
  | Throws error => CbThrows error
  end.

(** ** Breakers and operations of the test suite *)

Definition options_window5 : CircuitBreakerOptions :=
  mkOptions None (Some (1 # 2)) (Some 5) None false.

Definition options_window0 : CircuitBreakerOptions :=
  mkOptions None None (Some 0) None false.

Definition options_max3 : CircuitBreakerOptions :=
  mkOptions (Some 3) None None (Some 50) false.

Definition options_interval50 : CircuitBreakerOptions :=
  mkOptions None None None (Some 50) false.

Definition options_max3_interval1 : CircuitBreakerOptions :=
  mkOptions (Some 3) None None (Some 1) false.

Definition failing : Operation Z := Returns (Rejects "boo!").
Definition succeeding : Operation Z := Returns (Resolves 3).
Definition throwing : Operation Z := Throws "oh noes".

(** ** Vocabulary for whole traces *)

(** Run-length encoding of a list of signed units: the inverse of [units]. *)
Fixpoint encode (us : list Z) : list Z :=
  match us with
  | [] => []
  | u :: rest =>
      match encode rest with
      | x :: runs => if Z.sgn x =? Z.sgn u then (x + u) :: runs else u :: x :: runs
      | [] => [u]
      end
  end.

(** The units that the settled calls of a trace record, oldest first. *)
Fixpoint recorded (es : list Event) : list Z :=
  match es with
  | [] => []
  | CallSettle success _ :: rest => unit_of success :: recorded rest
  | _ :: rest => recorded rest
  end.

(** Calls started one after the other, none settling: each with the clock
    readings of its gate and of its admission check. *)
Definition call_starts (ts : list (Z * Z)) : list Event :=
  map (fun t => CallStart (fst t) (snd t)) ts.

Definition is_clear (e : Event) : bool :=
  match e with
  | CallClear => true
  | _ => false
  end.

(** Number of successes among decoded units. *)
Definition successes (us : list Z) : Z := Z.of_nat (count_occ Z.eq_dec us 1).

(** The fields that only the constructor writes. *)
Definition same_config (b b' : CircuitBreaker) : Prop :=
  name b' = name b /\ maxConcurrent b' = maxConcurrent b
  /\ tripRate b' = tripRate b /\ window b' = window b
  /\ checkInterval b' = checkInterval b /\ logger b' = logger b.

(** The two messages the class logs, with the mode [toString()] renders in
    each: a trip is logged after the mode is set, a reset before. *)
Definition message_ok (nm : string) (m : LogMessage) : Prop :=
  match m with
  | Tripping d => d_name d = nm /\ d_mode d = Tripped
  | Resetting d => d_name d = nm /\ d_mode d = Probation
  end.

(** How a method may change the breaker as far as configuration and log
    go: the configuration stays, the log grows by well-formed messages, and
    by none when no logger is set. *)
Definition evolves (b b' : CircuitBreaker) : Prop :=
  same_config b b'
  /\ exists l, logged b' = logged b ++ l
               /\ Forall (message_ok (name b)) l
               /\ (logger b = false -> l = []).

(** History and mode of a fresh breaker of window [w] and trip rate [r]
    after [k] failures in a row, in closed form. *)
Definition failures_history (w k : Z) : list Z :=
  if k =? 0 then [w] else if k <? w then [w - k; - k] else [- w].

Definition failures_mode (w : Z) (r : Q) (k : Z) : Mode :=
  if (0 <? k) && JS.lt (JS.div (Z.max 0 (w - k)) w) r then Tripped else Normal.

(** * Properties *)

(** ** Record bookkeeping *)

Lemma log_history (m : LogMessage) (b : CircuitBreaker) : history (log m b) = history b.
Proof. unfold log; destruct (logger b); reflexivity. Qed.

Lemma log_window (m : LogMessage) (b : CircuitBreaker) : window (log m b) = window b.
Proof. unfold log; destruct (logger b); reflexivity. Qed.

Lemma log_mode (m : LogMessage) (b : CircuitBreaker) : mode (log m b) = mode b.
Proof. unfold log; destruct (logger b); reflexivity. Qed.

Lemma log_lastCheck (m : LogMessage) (b : CircuitBreaker) : lastCheck (log m b) = lastCheck b.
Proof. unfold log; destruct (logger b); reflexivity. Qed.

Lemma log_concurrent (m : LogMessage) (b : CircuitBreaker) : concurrent (log m b) = concurrent b.
Proof. unfold log; destruct (logger b); reflexivity. Qed.

Lemma log_checkInterval (m : LogMessage) (b : CircuitBreaker) : checkInterval (log m b) = checkInterval b.
Proof. unfold log; destruct (logger b); reflexivity. Qed.

Lemma log_maxConcurrent (m : LogMessage) (b : CircuitBreaker) : maxConcurrent (log m b) = maxConcurrent b.
Proof. unfold log; destruct (logger b); reflexivity. Qed.

Lemma log_name (m : LogMessage) (b : CircuitBreaker) : name (log m b) = name b.
Proof. unfold log; destruct (logger b); reflexivity. Qed.

Lemma log_tripRate (m : LogMessage) (b : CircuitBreaker) : tripRate (log m b) = tripRate b.
Proof. unfold log; destruct (logger b); reflexivity. Qed.

Lemma trip_mode (now : Z) (b : CircuitBreaker) : mode (trip now b) = Tripped.
Proof. unfold trip; cbv zeta; rewrite log_mode; reflexivity. Qed.

Lemma trip_lastCheck (now : Z) (b : CircuitBreaker) : lastCheck (trip now b) = now.
Proof. unfold trip; cbv zeta; rewrite log_lastCheck; reflexivity. Qed.

Lemma trip_history (now : Z) (b : CircuitBreaker) : history (trip now b) = history b.
Proof. unfold trip; cbv zeta; rewrite log_history; reflexivity. Qed.

Lemma trip_window (now : Z) (b : CircuitBreaker) : window (trip now b) = window b.
Proof. unfold trip; cbv zeta; rewrite log_window; reflexivity. Qed.

Lemma trip_concurrent (now : Z) (b : CircuitBreaker) : concurrent (trip now b) = concurrent b.
Proof. unfold trip; cbv zeta; rewrite log_concurrent; reflexivity. Qed.

Lemma trip_checkInterval (now : Z) (b : CircuitBreaker) : checkInterval (trip now b) = checkInterval b.
Proof. unfold trip; cbv zeta; rewrite log_checkInterval; reflexivity. Qed.

Lemma trip_maxConcurrent (now : Z) (b : CircuitBreaker) : maxConcurrent (trip now b) = maxConcurrent b.
Proof. unfold trip; cbv zeta; rewrite log_maxConcurrent; reflexivity. Qed.

Lemma trip_name (now : Z) (b : CircuitBreaker) : name (trip now b) = name b.
Proof. unfold trip; cbv zeta; rewrite log_name; reflexivity. Qed.

Create Rewrite HintDb frame.

#[local] Hint Rewrite log_history log_window log_mode log_lastCheck log_concurrent
  log_checkInterval log_maxConcurrent log_name log_tripRate
  trip_mode trip_lastCheck trip_history trip_window trip_concurrent
  trip_checkInterval trip_maxConcurrent trip_name : frame.

Ltac frame :=
  repeat progress
    (autorewrite with frame;
     cbn [history window mode lastCheck concurrent checkInterval maxConcurrent
          name tripRate logger logged set_mode set_history set_lastCheck
          set_concurrent finishedConcurrent]).

(** ** Runs and their decoding *)

Lemma magnitude_app (p q : list Z) : magnitude (p ++ q) = magnitude p + magnitude q.
Proof. induction p as [|x p IH]; cbn [app magnitude]; lia. Qed.

Lemma magnitude_nonneg (h : list Z) : 0 <= magnitude h.
Proof. induction h as [|x h IH]; cbn [magnitude]; lia. Qed.

Lemma units_app (p q : list Z) : units (p ++ q) = units p ++ units q.
Proof. unfold units; apply flat_map_app. Qed.

Lemma units_length (h : list Z) : Z.of_nat (List.length (units h)) = magnitude h.
Proof.
  induction h as [|x h IH]; [reflexivity|].
  change (units (x :: h)) with (repeat (Z.sgn x) (Z.abs_nat x) ++ units h).
  rewrite length_app, repeat_length; cbn [magnitude]; lia.
Qed.

(** A run that grows by one unit of its own sign is the same run followed by
    that unit. *)
Lemma run_grows (l r : Z) :
  l <> 0 -> (r = 1 \/ r = -1) -> Z.sgn l = r ->
  repeat (Z.sgn (l + r)) (Z.abs_nat (l + r)) = repeat (Z.sgn l) (Z.abs_nat l) ++ [r].
Proof.
  intros Hl Hr Hs.
  assert (Hs' : Z.sgn (l + r) = Z.sgn l) by lia.
  assert (Hn : Z.abs_nat (l + r) = S (Z.abs_nat l)) by lia.
  rewrite Hs', Hn, Hs; cbn [repeat]; apply repeat_cons.
Qed.

(** A run that shrinks by one unit toward zero loses its first unit. *)
Lemma run_shrinks (x : Z) :
  x <> 0 ->
  let x' := if x <? 0 then x + 1 else x - 1 in
  repeat (Z.sgn x') (Z.abs_nat x') = tl (repeat (Z.sgn x) (Z.abs_nat x)).
Proof.
  intros Hx x'.
  assert (Hn : Z.abs_nat x = S (Z.abs_nat x')) by (subst x'; destruct (Z.ltb_spec x 0); lia).
  rewrite Hn; cbn [repeat tl].
  destruct (Z.abs_nat x') eqn:E; [reflexivity|].
  replace (Z.sgn x') with (Z.sgn x); [reflexivity|].
  subst x'; destruct (Z.ltb_spec x 0); lia.
Qed.

(** ** Alternation of signs at the two ends *)

Lemma alternating_last_sgn (p : list Z) (l l' : Z) :
  Z.sgn l = Z.sgn l' -> alternating (p ++ [l]) = alternating (p ++ [l']).
Proof.
  intros Hs; induction p as [|x p IH]; [reflexivity|].
  destruct p as [|y p]; cbn [app alternating] in *.
  - rewrite Hs; reflexivity.
  - rewrite IH; reflexivity.
Qed.

Lemma alternating_push (p : list Z) (l r : Z) :
  alternating (p ++ [l]) = true -> Z.sgn l <> Z.sgn r ->
  alternating ((p ++ [l]) ++ [r]) = true.
Proof.
  intros Ha Hs; induction p as [|x p IH].
  - cbn. apply andb_true_iff; split; [|reflexivity].
    apply negb_true_iff, Z.eqb_neq; exact Hs.
  - destruct p as [|y p]; cbn [app alternating] in *;
      apply andb_true_iff in Ha; destruct Ha as [Hxy Ha];
      apply andb_true_iff; split; auto.
Qed.

Lemma alternating_tail (x : Z) (rest : list Z) :
  alternating (x :: rest) = true -> alternating rest = true.
Proof.
  destruct rest as [|y rest]; [reflexivity|].
  cbn [alternating]; intros H; apply andb_true_iff in H; tauto.
Qed.

Lemma alternating_head_sgn (x x' : Z) (rest : list Z) :
  Z.sgn x = Z.sgn x' -> alternating (x :: rest) = alternating (x' :: rest).
Proof.
  intros Hs; destruct rest as [|y rest]; [reflexivity|].
  cbn [alternating]; rewrite Hs; reflexivity.
Qed.

Lemma forallb_nonzero_app (p q : list Z) :
  forallb nonzero (p ++ q) = forallb nonzero p && forallb nonzero q.
Proof. apply forallb_app. Qed.

Lemma nonzero_true (x : Z) : nonzero x = true <-> x <> 0.
Proof. unfold nonzero; rewrite negb_true_iff; apply Z.eqb_neq. Qed.

(** ** One recorded outcome on a well-formed history *)

Lemma history_ok_iff (w : Z) (h : list Z) :
  history_ok w h = true <->
  magnitude h = w /\ forallb nonzero h = true /\ alternating h = true.
Proof.
  unfold history_ok; rewrite !andb_true_iff, Z.eqb_eq; tauto.
Qed.

Lemma push_newest_snoc (r l : Z) (p : list Z) :
  push_newest r (p ++ [l]) =
  if ((l >? 0) && (r <? 0)) || ((l <? 0) && (r >? 0))
  then Some ((p ++ [l]) ++ [r])
  else Some (p ++ [l + r]).
Proof.
  unfold push_newest.
  destruct (p ++ [l]) as [|y q] eqn:E.
  - destruct p; discriminate.
  - rewrite <- E, last_last, removelast_last; reflexivity.
Qed.

Lemma units_unit (r : Z) : r = 1 \/ r = -1 -> units [r] = [r].
Proof. intros [-> | ->]; reflexivity. Qed.

Lemma push_newest_spec (w r : Z) (h : list Z) :
  history_ok w h = true -> 0 < w -> r = 1 \/ r = -1 ->
  exists h1, push_newest r h = Some h1
             /\ history_ok (w + 1) h1 = true
             /\ units h1 = units h ++ [r].
Proof.
  intros Hok Hw Hr.
  apply history_ok_iff in Hok; destruct Hok as (Hm & Hnz & Halt).
  destruct (exists_last (l := h)) as (p & l & ->).
  { intros ->; cbn in Hm; lia. }
  rewrite forallb_nonzero_app, andb_true_iff in Hnz; destruct Hnz as (Hp & Hl).
  cbn [forallb] in Hl; rewrite andb_true_r, nonzero_true in Hl.
  rewrite magnitude_app in Hm; cbn [magnitude] in Hm.
  rewrite push_newest_snoc.
  destruct (((l >? 0) && (r <? 0)) || ((l <? 0) && (r >? 0))) eqn:Hflip.
  - (* the sign flips: a new run *)
    eexists; split; [reflexivity|]; split.
    + apply history_ok_iff; repeat split.
      * rewrite !magnitude_app; cbn [magnitude]; lia.
      * assert (Hr' : nonzero r = true) by (apply nonzero_true; lia).
        apply nonzero_true in Hl.
        rewrite !forallb_nonzero_app; cbn [forallb].
        rewrite Hp, Hl, Hr'; reflexivity.
      * apply alternating_push; [assumption|].
        rewrite orb_true_iff, !andb_true_iff in Hflip; lia.
    + rewrite units_app, (units_unit r Hr); reflexivity.
  - (* same sign: the newest run grows *)
    assert (Hs : Z.sgn l = r).
    { rewrite orb_false_iff, !andb_false_iff in Hflip; lia. }
    eexists; split; [reflexivity|]; split.
    + apply history_ok_iff; repeat split.
      * rewrite magnitude_app; cbn [magnitude]; lia.
      * assert (Hlr : nonzero (l + r) = true) by (apply nonzero_true; lia).
        rewrite forallb_nonzero_app; cbn [forallb].
        rewrite Hp, Hlr; reflexivity.
      * rewrite <- Halt; apply alternating_last_sgn; lia.
    + rewrite !units_app, <- app_assoc; f_equal.
      unfold units; cbn [flat_map]; rewrite !app_nil_r.
      apply run_grows; assumption.
Qed.

Lemma drop_oldest_spec (w : Z) (h1 : list Z) :
  history_ok (w + 1) h1 = true -> 0 <= w ->
  exists h2, drop_oldest h1 = Some h2
             /\ history_ok w h2 = true
             /\ units h2 = tl (units h1).
Proof.
  intros Hok Hw.
  apply history_ok_iff in Hok; destruct Hok as (Hm & Hnz & Halt).
  destruct h1 as [|x rest]; [cbn in Hm; lia|].
  cbn [forallb] in Hnz; rewrite andb_true_iff, nonzero_true in Hnz.
  destruct Hnz as (Hx & Hrest).
  cbn [magnitude] in Hm.
  unfold drop_oldest.
  pose proof (run_shrinks x Hx) as Hrun; cbv zeta in Hrun.
  set (x' := if x <? 0 then x + 1 else x - 1) in *.
  assert (Hx' : Z.abs x' = Z.abs x - 1 /\ (x' <> 0 -> Z.sgn x' = Z.sgn x)).
  { subst x'; destruct (Z.ltb_spec x 0); lia. }
  change (units (x :: rest)) with (repeat (Z.sgn x) (Z.abs_nat x) ++ units rest).
  assert (Htl : tl (repeat (Z.sgn x) (Z.abs_nat x) ++ units rest)
                = tl (repeat (Z.sgn x) (Z.abs_nat x)) ++ units rest).
  { destruct (Z.abs_nat x) eqn:E; [lia|reflexivity]. }
  rewrite Htl, <- Hrun.
  destruct (Z.eqb_spec x' 0) as [Hz | Hz].
  - (* the oldest run is used up and shifted out *)
    eexists; split; [reflexivity|]; split.
    + apply history_ok_iff; repeat split;
        [lia | assumption | eapply alternating_tail; eassumption].
    + rewrite Hz; reflexivity.
  - eexists; split; [reflexivity|]; split.
    + apply history_ok_iff; repeat split.
      * cbn [magnitude]; lia.
      * cbn [forallb]; rewrite Hrest, andb_true_r; apply nonzero_true; assumption.
      * rewrite <- Halt; apply alternating_head_sgn; apply Hx'; assumption.
    + reflexivity.
Qed.

Lemma record_result_spec (w r : Z) (h : list Z) :
  history_ok w h = true -> 0 < w -> r = 1 \/ r = -1 ->
  exists h', record_result r h = Some h'
             /\ history_ok w h' = true
             /\ units h' = tl (units h ++ [r]).
Proof.
  intros Hok Hw Hr.
  destruct (push_newest_spec w r h Hok Hw Hr) as (h1 & E1 & Hok1 & Hu1).
  destruct (drop_oldest_spec w h1 Hok1 ltac:(lia)) as (h2 & E2 & Hok2 & Hu2).
  exists h2; unfold record_result; rewrite E1, E2, Hu2, Hu1; auto.
Qed.

(** ** Effects of the methods on the fields *)

Lemma addResult_frame (r now : Z) (b b' : CircuitBreaker) :
  addResult r now b = Some b' ->
  record_result r (history b) = Some (history b')
  /\ window b' = window b /\ concurrent b' = concurrent b
  /\ checkInterval b' = checkInterval b /\ maxConcurrent b' = maxConcurrent b
  /\ name b' = name b.
Proof.
  unfold addResult.
  destruct (record_result r (history b)) as [h|]; [|discriminate].
  destruct ((r >? 0) && Mode_eqb (mode (set_history h b)) Probation).
  - intros [= <-]; frame; auto 10.
  - destruct (r <? 0);
      [destruct (Mode_eqb (mode (set_history h b)) Probation
                 || JS.lt (successRate (set_history h b)) (tripRate (set_history h b)))|];
      intros [= <-]; frame; auto 10.
Qed.

Lemma addConcurrent_frame (now : Z) (b : CircuitBreaker) :
  history (addConcurrent now b) = history b
  /\ window (addConcurrent now b) = window b
  /\ concurrent (addConcurrent now b) = concurrent b + 1
  /\ checkInterval (addConcurrent now b) = checkInterval b
  /\ maxConcurrent (addConcurrent now b) = maxConcurrent b
  /\ name (addConcurrent now b) = name b.
Proof.
  unfold addConcurrent; cbv zeta.
  destruct (concurrent (set_concurrent (concurrent b + 1) b)
            >? maxConcurrent (set_concurrent (concurrent b + 1) b));
    frame; auto 10.
Qed.

Lemma check_frame (now : Z) (b : CircuitBreaker) :
  history (snd (check now b)) = history b
  /\ window (snd (check now b)) = window b
  /\ concurrent (snd (check now b)) = concurrent b
  /\ checkInterval (snd (check now b)) = checkInterval b
  /\ maxConcurrent (snd (check now b)) = maxConcurrent b
  /\ lastCheck (snd (check now b)) = lastCheck b
  /\ name (snd (check now b)) = name b.
Proof.
  unfold check; destruct (mode b); cbn [snd]; auto 10.
  destruct (lastCheck b + checkInterval b <=? now); cbn [snd]; auto 10.
Qed.

Lemma start_frame (gate now : Z) (b : CircuitBreaker) :
  history (snd (start gate now b)) = history b
  /\ window (snd (start gate now b)) = window b.
Proof.
  unfold start; cbv zeta.
  destruct (addConcurrent_frame gate b) as (Hh & Hw & _).
  destruct (check_frame now (addConcurrent gate b)) as (Hh' & Hw' & _).
  destruct (check now (addConcurrent gate b)) as [ok b2]; cbn [snd] in *.
  destruct ok; cbn [negb snd]; frame; split; congruence.
Qed.

(** ** The invariant along every run *)

Lemma clear_well_formed (b : CircuitBreaker) : 0 < window b -> well_formed (clear b).
Proof.
  intros Hw; split; [exact Hw|].
  apply history_ok_iff; cbn [clear set_mode set_history history window magnitude forallb alternating].
  repeat split; [lia|].
  rewrite andb_true_r; apply nonzero_true; lia.
Qed.

Lemma new_well_formed (nm : string) (o : CircuitBreakerOptions) :
  0 < window (new_CircuitBreaker nm o) -> well_formed (new_CircuitBreaker nm o).
Proof. intros Hw; apply clear_well_formed; exact Hw. Qed.

Lemma addResult_well_formed (r now : Z) (b : CircuitBreaker) :
  well_formed b -> r = 1 \/ r = -1 ->
  exists b', addResult r now b = Some b'
             /\ well_formed b'
             /\ window b' = window b
             /\ units (history b') = tl (units (history b) ++ [r]).
Proof.
  intros (Hw & Hok) Hr.
  destruct (record_result_spec _ r _ Hok Hw Hr) as (h' & E & Hok' & Hu).
  assert (Hsome : exists b', addResult r now b = Some b').
  { unfold addResult; rewrite E.
    repeat match goal with |- context [if ?c then _ else _] => destruct c end; eauto. }
  destruct Hsome as (b' & Hb'); exists b'.
  destruct (addResult_frame _ _ _ _ Hb') as (Hh & Hwin & _).
  rewrite E in Hh; injection Hh as Hh; subst h'.
  unfold well_formed; rewrite Hwin; auto.
Qed.

Lemma settle_well_formed (success : bool) (now : Z) (b : CircuitBreaker) :
  well_formed b ->
  exists b', settle success now b = Some b'
             /\ well_formed b'
             /\ window b' = window b
             /\ concurrent b' = concurrent b - 1
             /\ units (history b') = tl (units (history b) ++ [unit_of success]).
Proof.
  intros Hwf.
  destruct (addResult_well_formed (unit_of success) now b Hwf) as (b1 & E & Hwf1 & Hw & Hu).
  { destruct success; cbn; auto. }
  destruct (addResult_frame _ _ _ _ E) as (_ & _ & Hc & _).
  unfold settle; fold (unit_of success); rewrite E.
  eexists; split; [reflexivity|].
  unfold well_formed in *; frame; rewrite Hc; auto.
Qed.

Lemma step_well_formed (e : Event) (b : CircuitBreaker) :
  well_formed b ->
  exists b', step e b = Some b' /\ well_formed b' /\ window b' = window b.
Proof.
  intros Hwf; destruct e as [gate now | success now | | now | now]; cbn [step].
  - destruct (start_frame gate now b) as (Hh & Hw).
    eexists; split; [reflexivity|]; unfold well_formed in *; rewrite Hh, Hw; auto.
  - destruct (settle_well_formed success now b Hwf) as (b' & E & Hwf' & Hw & _).
    eauto.
  - eexists; split; [reflexivity|]; split; [apply clear_well_formed; apply Hwf|reflexivity].
  - eexists; split; [reflexivity|]; unfold well_formed in *; frame; auto.
  - destruct (check_frame now b) as (Hh & Hw & _).
    eexists; split; [reflexivity|]; unfold well_formed in *; rewrite Hh, Hw; auto.
Qed.

Lemma run_well_formed (es : list Event) (b : CircuitBreaker) :
  well_formed b ->
  exists b', run es b = Some b' /\ well_formed b' /\ window b' = window b.
Proof.
  revert b; induction es as [|e es IH]; intros b Hwf; cbn [run].
  - eauto.
  - destruct (step_well_formed e b Hwf) as (b1 & E & Hwf1 & Hw1); rewrite E.
    destruct (IH b1 Hwf1) as (b' & E' & Hwf' & Hw'); exists b'.
    split; [exact E'|]; split; [exact Hwf'|]; congruence.
Qed.

(** ** The success rate of a well-formed history *)

Lemma positives_bounds (h : list Z) : 0 <= positives h <= magnitude h.
Proof.
  induction h as [|x h IH]; cbn [positives magnitude]; [lia|].
  destruct (Z.ltb_spec x 0); lia.
Qed.

(** Under the invariant the defensive bound of the loop never cuts the
    walk short. *)
Lemma successRate_loop_full (w : Z) (h : list Z) :
  forall score count,
    count + magnitude h <= w ->
    successRate_loop w h score count = (score + positives h, count + magnitude h).
Proof.
  induction h as [|x h IH]; intros score count Hle; cbn [successRate_loop positives magnitude] in *.
  - f_equal; lia.
  - pose proof (magnitude_nonneg h).
    destruct (Z.leb_spec count w); [|lia].
    destruct (Z.ltb_spec x 0); rewrite IH by lia; f_equal; lia.
Qed.

Lemma successRate_well_formed (b : CircuitBreaker) :
  well_formed b -> successRate b = JS.div (positives (history b)) (window b).
Proof.
  intros (Hw & Hok); apply history_ok_iff in Hok; destruct Hok as (Hm & _).
  unfold successRate; rewrite successRate_loop_full by lia.
  rewrite Hm; reflexivity.
Qed.

Lemma div_in_unit_interval (a w : Z) :
  0 < w -> 0 <= a <= w -> JS.in_unit_interval (JS.div a w).
Proof.
  intros Hw Ha; destruct w as [|p|p]; try lia.
  cbn [JS.div JS.in_unit_interval]; rewrite Qred_correct.
  unfold Qle; cbn [Qnum Qden]; lia.
Qed.

Lemma div_self (w : Z) : 0 < w -> JS.div w w = JS.Finite 1.
Proof.
  intros Hw; destruct w as [|p|p]; try lia.
  cbn [JS.div]; f_equal.
  change 1%Q with (Qred 1); apply Qred_complete.
  unfold Qeq; cbn [Qnum Qden]; lia.
Qed.

Lemma successRate_in_unit_interval (b : CircuitBreaker) :
  well_formed b -> JS.in_unit_interval (successRate b).
Proof.
  intros Hwf; rewrite (successRate_well_formed b Hwf).
  destruct Hwf as (Hw & Hok); apply history_ok_iff in Hok; destruct Hok as (Hm & _).
  apply div_in_unit_interval; [exact Hw|].
  rewrite <- Hm; apply positives_bounds.
Qed.

(** ** Totality of an outcome on a non-empty history *)

Lemma record_result_some (r : Z) (h : list Z) :
  h <> [] -> exists h', record_result r h = Some h'.
Proof.
  intros Hne; destruct (exists_last Hne) as (p & l & ->).
  unfold record_result; rewrite push_newest_snoc.
  destruct (((l >? 0) && (r <? 0)) || ((l <? 0) && (r >? 0))).
  - destruct ((p ++ [l]) ++ [r]) eqn:E; [destruct p; discriminate|].
    cbn [drop_oldest]; eauto.
  - destruct (p ++ [l + r]) eqn:E; [destruct p; discriminate|].
    cbn [drop_oldest]; eauto.
Qed.

(** ** The wrappers as a prefix and a continuation *)

Lemma do_start_settle {T : Type} (f : Operation T) (gate now later : Z) (b : CircuitBreaker) :
  do_ f gate now later b =
  match start gate now b with
  | (false, b3) => Some (mkOutcome b3 0%nat (Failure (tripped_error b3)))
  | (true, b2) =>
      match settle (succeeds f) later b2 with
      | Some b4 => Some (mkOutcome b4 1%nat (result_of f))
      | None => None
      end
  end.
Proof.
  unfold do_, start, settle; cbv zeta.
  destruct (check now (addConcurrent gate b)) as [[|] b2]; cbn [negb]; [|reflexivity].
  destruct f as [e | [v | e]]; cbn [succeeds result_of];
    destruct (addResult _ later b2); reflexivity.
Qed.

Lemma doCallback_start_settle {T : Type} (f : CallbackOperation T) (gate now later : Z)
      (b : CircuitBreaker) :
  doCallback f gate now later b =
  match start gate now b with
  | (false, b3) => Some (mkOutcome b3 0%nat (Failure (tripped_error b3)))
  | (true, b2) =>
      match f with
      | CbThrows error => Some (mkOutcome b2 1%nat (Failure error))
      | CbError error =>
          match settle false later b2 with
          | Some b4 => Some (mkOutcome b4 1%nat (Failure error))
          | None => None
          end
      | CbValue value =>
          match settle true later b2 with
          | Some b4 => Some (mkOutcome b4 1%nat (Value value))
          | None => None
          end
      end
  end.
Proof.
  unfold doCallback, start, settle; cbv zeta.
  destruct (check now (addConcurrent gate b)) as [[|] b2]; cbn [negb]; [|reflexivity].
  destruct f as [e | e | v]; try reflexivity;
    destruct (addResult _ later b2); reflexivity.
Qed.

(** On an operation that does not throw, the two wrappers act alike. *)
Lemma doCallback_agrees_with_do {T : Type} (p : Promise T) (gate now later : Z)
      (b : CircuitBreaker) :
  doCallback (as_callback (Returns p)) gate now later b = do_ (Returns p) gate now later b.
Proof.
  rewrite do_start_settle, doCallback_start_settle.
  destruct (start gate now b) as [[|] b2]; [|reflexivity].
  destruct p; reflexivity.
Qed.

Lemma start_concurrent (gate now : Z) (b : CircuitBreaker) :
  concurrent (snd (start gate now b)) =
  if fst (start gate now b) then concurrent b + 1 else concurrent b.
Proof.
  unfold start; cbv zeta.
  destruct (addConcurrent_frame gate b) as (_ & _ & Hc & _).
  destruct (check_frame now (addConcurrent gate b)) as (_ & _ & Hc' & _).
  destruct (check now (addConcurrent gate b)) as [[|] b2]; cbn [negb fst snd] in *; frame; lia.
Qed.

Lemma start_name (gate now : Z) (b : CircuitBreaker) : name (snd (start gate now b)) = name b.
Proof.
  unfold start; cbv zeta.
  destruct (addConcurrent_frame gate b) as (_ & _ & _ & _ & _ & Hn).
  destruct (check_frame now (addConcurrent gate b)) as (_ & _ & _ & _ & _ & _ & Hn').
  destruct (check now (addConcurrent gate b)) as [[|] b2]; cbn [negb fst snd] in *; frame; congruence.
Qed.

(** Every exit path of [do] gives the counter back. *)
Lemma do_concurrent_restored {T : Type} (f : Operation T) (gate now later : Z)
      (b : CircuitBreaker) (o : Outcome T) :
  do_ f gate now later b = Some o -> concurrent (breaker o) = concurrent b.
Proof.
  rewrite do_start_settle.
  pose proof (start_concurrent gate now b) as Hc.
  destruct (start gate now b) as [[|] b2]; cbn [fst snd] in Hc.
  - unfold settle.
    destruct (addResult _ later b2) as [b3|] eqn:E; [|discriminate].
    destruct (addResult_frame _ _ _ _ E) as (_ & _ & Hc3 & _).
    intros [= <-]; cbn [breaker]; frame; lia.
  - intros [= <-]; cbn [breaker]; exact Hc.
Qed.

(** * The sliding window *)

(** C1.  For a breaker constructed with a positive window, after every
    sequence of calls started, outcomes recorded, [clear()], [trip()] and
    [check()], the history has total absolute magnitude exactly [window],
    holds no zero and no two adjacent runs of the same sign; and from every
    such state a recorded outcome succeeds and turns the decoded window of
    units into the old one with the new unit appended at the newest end and
    the oldest unit removed. *)
Theorem history_invariant (nm : string) (o : CircuitBreakerOptions) (es : list Event) :
  0 < window (new_CircuitBreaker nm o) ->
  exists b,
    run es (new_CircuitBreaker nm o) = Some b
    /\ magnitude (history b) = window (new_CircuitBreaker nm o)
    /\ forallb nonzero (history b) = true
    /\ alternating (history b) = true
    /\ forall success now,
         exists b', settle success now b = Some b'
                    /\ units (history b') = tl (units (history b) ++ [unit_of success]).
Proof.
  intros Hw.
  destruct (run_well_formed es _ (new_well_formed nm o Hw)) as (b & E & Hwf & Hwin).
  exists b; split; [exact E|].
  pose proof Hwf as (_ & Hok); apply history_ok_iff in Hok.
  destruct Hok as (Hm & Hnz & Halt).
  repeat split; try assumption; [congruence|].
  intros success now.
  destruct (settle_well_formed success now b Hwf) as (b' & E' & _ & _ & _ & Hu).
  eauto.
Qed.

Lemma history_invariant_witness :
  0 < window (new_CircuitBreaker "test" options_window5)
  /\ exists b,
       run [CallStart 0 0; CallSettle false 1; CallStart 2 2; CallSettle true 3; CallClear]
           (new_CircuitBreaker "test" options_window5) = Some b
       /\ magnitude (history b) = window (new_CircuitBreaker "test" options_window5)
       /\ forallb nonzero (history b) = true
       /\ alternating (history b) = true
       /\ forall success now,
            exists b', settle success now b = Some b'
                       /\ units (history b') = tl (units (history b) ++ [unit_of success]).
Proof.
  split; [reflexivity|].
  apply (history_invariant "test" options_window5); reflexivity.
Defined.

(** C7.  [clear()] replaces the history with the single run [[window]] and
    sets the mode to Normal; the in-flight counter, the trip time and every
    configuration field are left as they were; with a positive window the
    success rate read right afterwards is exactly 1. *)
Theorem clear_resets (b : CircuitBreaker) :
  0 < window b ->
  history (clear b) = [window b]
  /\ mode (clear b) = Normal
  /\ successRate (clear b) = JS.Finite 1
  /\ concurrent (clear b) = concurrent b
  /\ lastCheck (clear b) = lastCheck b
  /\ name (clear b) = name b
  /\ maxConcurrent (clear b) = maxConcurrent b
  /\ tripRate (clear b) = tripRate b
  /\ window (clear b) = window b
  /\ checkInterval (clear b) = checkInterval b
  /\ logger (clear b) = logger b.
Proof.
  intros Hw; repeat split.
  rewrite (successRate_well_formed _ (clear_well_formed b Hw)).
  cbn [clear set_mode set_history history window positives].
  destruct (Z.ltb_spec (window b) 0); [lia|].
  rewrite Z.add_0_r; apply div_self; exact Hw.
Qed.

Lemma clear_resets_witness :
  let b := trip 7 (new_CircuitBreaker "test" options_window5) in
  0 < window b
  /\ history (clear b) = [window b]
  /\ mode (clear b) = Normal
  /\ successRate (clear b) = JS.Finite 1
  /\ concurrent (clear b) = concurrent b
  /\ lastCheck (clear b) = lastCheck b
  /\ name (clear b) = name b
  /\ maxConcurrent (clear b) = maxConcurrent b
  /\ tripRate (clear b) = tripRate b
  /\ window (clear b) = window b
  /\ checkInterval (clear b) = checkInterval b
  /\ logger (clear b) = logger b.
Proof.
  intros b; split; [reflexivity|].
  apply (clear_resets b); reflexivity.
Defined.

(** C8, as the code has it.  The constructor validates nothing: a window of
    0 is accepted, and the success rate of that breaker is [0/0]. *)
Lemma window_zero_rate_is_NaN :
  window (new_CircuitBreaker "test" options_window0) = 0
  /\ successRate (new_CircuitBreaker "test" options_window0) = JS.NaN
  /\ ~ JS.in_unit_interval (successRate (new_CircuitBreaker "test" options_window0)).
Proof.
  split; [reflexivity|]; split; [reflexivity|]; intros H; exact H.
Qed.

(** C8, amended.  For a breaker whose window is positive, after every
    sequence of operations the success rate is a finite number between 0
    and 1: the division is by [window]. *)
Theorem successRate_bounded (nm : string) (o : CircuitBreakerOptions) (es : list Event) :
  0 < window (new_CircuitBreaker nm o) ->
  exists b,
    run es (new_CircuitBreaker nm o) = Some b
    /\ successRate b = JS.div (positives (history b)) (window (new_CircuitBreaker nm o))
    /\ JS.in_unit_interval (successRate b).
Proof.
  intros Hw.
  destruct (run_well_formed es _ (new_well_formed nm o Hw)) as (b & E & Hwf & Hwin).
  exists b; split; [exact E|]; split.
  - rewrite <- Hwin; apply successRate_well_formed; exact Hwf.
  - apply successRate_in_unit_interval; exact Hwf.
Qed.

Lemma successRate_bounded_witness :
  0 < window (new_CircuitBreaker "test" no_options)
  /\ exists b,
       run [CallStart 0 0; CallSettle false 5; CallTrip 6; CallCheck 40000; CallStart 40001 40001]
           (new_CircuitBreaker "test" no_options) = Some b
       /\ successRate b
          = JS.div (positives (history b)) (window (new_CircuitBreaker "test" no_options))
       /\ JS.in_unit_interval (successRate b).
Proof.
  split; [reflexivity|].
  apply (successRate_bounded "test" no_options); reflexivity.
Defined.

(** * Admission *)

Lemma addConcurrent_under (now : Z) (b : CircuitBreaker) :
  concurrent b + 1 <= maxConcurrent b ->
  addConcurrent now b = set_concurrent (concurrent b + 1) b.
Proof.
  intros H; unfold addConcurrent; cbv zeta; frame.
  rewrite Z.gtb_ltb; destruct (Z.ltb_spec (maxConcurrent b) (concurrent b + 1)); [lia|reflexivity].
Qed.

Lemma addConcurrent_over (now : Z) (b : CircuitBreaker) :
  maxConcurrent b < concurrent b + 1 ->
  addConcurrent now b = trip now (set_concurrent (concurrent b + 1) b).
Proof.
  intros H; unfold addConcurrent; cbv zeta; frame.
  rewrite Z.gtb_ltb; destruct (Z.ltb_spec (maxConcurrent b) (concurrent b + 1)); [reflexivity|lia].
Qed.

Lemma check_tripped_early (now : Z) (b : CircuitBreaker) :
  mode b = Tripped -> now < lastCheck b + checkInterval b -> check now b = (false, b).
Proof.
  intros Hm Ht; unfold check; rewrite Hm.
  destruct (Z.leb_spec (lastCheck b + checkInterval b) now); [lia|reflexivity].
Qed.

Lemma check_tripped_late (now : Z) (b : CircuitBreaker) :
  mode b = Tripped -> lastCheck b + checkInterval b <= now ->
  check now b = (true, set_mode Probation b).
Proof.
  intros Hm Ht; unfold check; rewrite Hm.
  destruct (Z.leb_spec (lastCheck b + checkInterval b) now); [reflexivity|lia].
Qed.

Lemma check_not_tripped (now : Z) (b : CircuitBreaker) :
  mode b <> Tripped -> check now b = (true, b).
Proof. intros Hm; unfold check; destruct (mode b); congruence. Qed.

(** A call that raises the counter above the ceiling: the gate trips at
    [gate], and the admission check, reading [now], lets the call through
    exactly when [checkInterval] has passed between the two reads. *)
Lemma start_over (gate now : Z) (b : CircuitBreaker) :
  maxConcurrent b < concurrent b + 1 ->
  start gate now b =
  if gate + checkInterval b <=? now
  then (true, set_mode Probation (trip gate (set_concurrent (concurrent b + 1) b)))
  else (false, finishedConcurrent (trip gate (set_concurrent (concurrent b + 1) b))).
Proof.
  intros Ho; unfold start; cbv zeta.
  rewrite (addConcurrent_over gate b Ho).
  destruct (Z.leb_spec (gate + checkInterval b) now).
  - rewrite check_tripped_late by (frame; auto; lia); reflexivity.
  - rewrite check_tripped_early by (frame; auto; lia); reflexivity.
Qed.

(** A call made while Tripped and too early is turned away: too early
    after the last trip when it stays within the ceiling, too early after
    the gate's own trip when it does not. *)
Lemma start_rejects (gate now : Z) (b : CircuitBreaker) :
  mode b = Tripped ->
  (concurrent b + 1 <= maxConcurrent b -> now < lastCheck b + checkInterval b) ->
  (maxConcurrent b < concurrent b + 1 -> now < gate + checkInterval b) ->
  exists b', start gate now b = (false, b')
             /\ mode b' = Tripped /\ concurrent b' = concurrent b /\ name b' = name b.
Proof.
  intros Hm Hunder Hover.
  destruct (Z.le_gt_cases (concurrent b + 1) (maxConcurrent b)) as [Hu | Ho].
  - unfold start; cbv zeta.
    rewrite (addConcurrent_under gate b Hu), check_tripped_early by (frame; auto).
    cbn [negb]; eexists; split; [reflexivity|]; frame; repeat split; [assumption|lia].
  - rewrite (start_over gate now b Ho).
    destruct (Z.leb_spec (gate + checkInterval b) now); [specialize (Hover Ho); lia|].
    eexists; split; [reflexivity|]; frame; repeat split; lia.
Qed.

(** A call made while Tripped once the interval has passed is let through
    and leaves the breaker in Probation. *)
Lemma start_lets_through (gate now : Z) (b : CircuitBreaker) :
  mode b = Tripped ->
  (concurrent b + 1 <= maxConcurrent b -> lastCheck b + checkInterval b <= now) ->
  (maxConcurrent b < concurrent b + 1 -> gate + checkInterval b <= now) ->
  exists b1, start gate now b = (true, b1) /\ mode b1 = Probation /\ history b1 = history b.
Proof.
  intros Hm Hunder Hover.
  destruct (Z.le_gt_cases (concurrent b + 1) (maxConcurrent b)) as [Hu | Ho].
  - unfold start; cbv zeta.
    rewrite (addConcurrent_under gate b Hu), check_tripped_late by (frame; auto).
    cbn [negb]; eexists; split; [reflexivity|]; frame; auto.
  - rewrite (start_over gate now b Ho).
    destruct (Z.leb_spec (gate + checkInterval b) now); [|specialize (Hover Ho); lia].
    eexists; split; [reflexivity|]; frame; auto.
Qed.

(** In Probation nothing holds a call back, short of the ceiling. *)
Lemma start_in_probation (gate now : Z) (b : CircuitBreaker) :
  mode b = Probation -> concurrent b + 1 <= maxConcurrent b ->
  start gate now b = (true, set_concurrent (concurrent b + 1) b).
Proof.
  intros Hm Hu; unfold start; cbv zeta.
  rewrite (addConcurrent_under gate b Hu), check_not_tripped by (frame; congruence).
  reflexivity.
Qed.

(** A call admitted from Probation finds the breaker in Probation. *)
Lemma start_ok_from_probation (gate now : Z) (b b1 : CircuitBreaker) :
  mode b = Probation -> start gate now b = (true, b1) ->
  mode b1 = Probation /\ history b1 = history b.
Proof.
  intros Hm; unfold start; cbv zeta.
  destruct (addConcurrent_frame gate b) as (Hh & _).
  destruct (check_frame now (addConcurrent gate b)) as (Hh' & _).
  unfold check in *.
  destruct (mode (addConcurrent gate b)) eqn:Hm1.
  - unfold addConcurrent in Hm1; cbv zeta in Hm1.
    destruct (_ >? _) in Hm1; revert Hm1; frame; congruence.
  - destruct (_ <=? _); cbn [negb snd] in *; intros [= <-]; frame; split; congruence.
  - cbn [negb snd] in *; intros [= <-]; split; congruence.
Qed.

(** * Outcomes and the mode *)

Lemma addResult_probation_success (now : Z) (b : CircuitBreaker) :
  mode b = Probation -> history b <> [] ->
  exists b', addResult 1 now b = Some b'
             /\ mode b' = Normal /\ lastCheck b' = lastCheck b.
Proof.
  intros Hm Hne; destruct (record_result_some 1 _ Hne) as (h & E).
  unfold addResult; rewrite E; frame; rewrite Hm; cbn [Z.gtb Z.compare Mode_eqb andb].
  eexists; split; [reflexivity|]; frame; auto.
Qed.

Lemma addResult_probation_failure (now : Z) (b : CircuitBreaker) :
  mode b = Probation -> history b <> [] ->
  exists b', addResult (-1) now b = Some b'
             /\ mode b' = Tripped /\ lastCheck b' = now.
Proof.
  intros Hm Hne; destruct (record_result_some (-1) _ Hne) as (h & E).
  unfold addResult; rewrite E; frame; rewrite Hm;
    cbn [Z.gtb Z.ltb Z.compare Mode_eqb andb orb].
  eexists; split; [reflexivity|]; frame; auto.
Qed.

Lemma addResult_tripped_success (now : Z) (b : CircuitBreaker) :
  mode b = Tripped -> history b <> [] ->
  exists b', addResult 1 now b = Some b'
             /\ mode b' = Tripped /\ lastCheck b' = lastCheck b.
Proof.
  intros Hm Hne; destruct (record_result_some 1 _ Hne) as (h & E).
  unfold addResult; rewrite E; frame; rewrite Hm;
    cbn [Z.gtb Z.ltb Z.compare Mode_eqb andb orb].
  eexists; split; [reflexivity|]; frame; auto.
Qed.

Lemma addResult_tripped_failure (now : Z) (b : CircuitBreaker) :
  mode b = Tripped -> history b <> [] ->
  exists h b', record_result (-1) (history b) = Some h
               /\ addResult (-1) now b = Some b'
               /\ mode b' = Tripped
               /\ lastCheck b' =
                  if JS.lt (successRate (set_history h b)) (tripRate b)
                  then now else lastCheck b.
Proof.
  intros Hm Hne; destruct (record_result_some (-1) _ Hne) as (h & E).
  exists h; unfold addResult; rewrite E; frame; rewrite Hm;
    cbn [Z.gtb Z.ltb Z.compare Mode_eqb andb orb].
  destruct (JS.lt (successRate (set_history h b)) (tripRate b));
    eexists; (split; [reflexivity|]); (split; [reflexivity|]); frame; auto.
Qed.

(** * The mode state machine *)

(** C2, as the code has it.  Three calls are in flight against a ceiling of
    three when a fourth trips the breaker at time 0.  A call made at time
    50 (both clock reads give 50), when [checkInterval] = 50 has passed,
    raises the counter above the ceiling again: the gate re-trips before the
    admission check, the call is turned away and the mode is still
    Tripped. *)
Lemma late_call_rejected_over_ceiling :
  exists b b',
    run [CallStart 0 0; CallStart 0 0; CallStart 0 0; CallStart 0 0]
        (new_CircuitBreaker "test" options_max3) = Some b
    /\ mode b = Tripped
    /\ lastCheck b + checkInterval b <= 50
    /\ do_ succeeding 50 50 60 b
       = Some (mkOutcome b' 0%nat (Failure "Circuit breaker tripped: test"))
    /\ mode b' = Tripped.
Proof.
  do 2 eexists; split; [vm_compute; reflexivity|].
  split; [reflexivity|]; split; [vm_compute; discriminate|].
  split; [vm_compute; reflexivity | reflexivity].
Qed.

(** C2, amended.  While the mode is Tripped:
    - a [do] whose admission check reads the clock before [checkInterval]
      has elapsed since the last trip is rejected with the error "Circuit
      breaker tripped: <name>", the operation is not invoked and the mode
      stays Tripped, provided the call stays within [maxConcurrent] or the
      gate reads the clock no earlier than the last trip time;
    - a [do] whose admission check reads the clock at or after that
      instant, and which stays within [maxConcurrent], flips the mode to
      Probation in the admission check and invokes the operation;
    - a [do] that raises the counter above [maxConcurrent] re-trips the
      breaker first, at the gate's clock reading; it is then rejected, mode
      Tripped and trip time that reading, when the admission check reads
      the clock less than [checkInterval] after it, whether or not the old
      interval had elapsed, and it is admitted in Probation otherwise. *)
Theorem tripped_admission {T : Type} (f : Operation T) (gate now later : Z) (b : CircuitBreaker) :
  mode b = Tripped ->
  (now < lastCheck b + checkInterval b ->
   concurrent b + 1 <= maxConcurrent b \/ lastCheck b <= gate ->
   exists b',
     do_ f gate now later b
     = Some (mkOutcome b' 0%nat
               (Failure (String.append "Circuit breaker tripped: " (name b))))
     /\ mode b' = Tripped)
  /\
  (lastCheck b + checkInterval b <= now ->
   concurrent b + 1 <= maxConcurrent b ->
   history b <> [] ->
   exists b1 o,
     start gate now b = (true, b1) /\ mode b1 = Probation
     /\ do_ f gate now later b = Some o
     /\ invocations o = 1%nat /\ delivered o = result_of f)
  /\
  (maxConcurrent b < concurrent b + 1 ->
   (now < gate + checkInterval b ->
    exists b',
      do_ f gate now later b
      = Some (mkOutcome b' 0%nat
                (Failure (String.append "Circuit breaker tripped: " (name b))))
      /\ mode b' = Tripped /\ lastCheck b' = gate)
   /\
   (gate + checkInterval b <= now ->
    history b <> [] ->
    exists b1 o,
      start gate now b = (true, b1) /\ mode b1 = Probation
      /\ do_ f gate now later b = Some o
      /\ invocations o = 1%nat /\ delivered o = result_of f)).
Proof.
  intros Hm.
  assert (Hprobe : forall b1, start gate now b = (true, b1) -> mode b1 = Probation ->
                     history b1 <> [] ->
                     exists b1 o,
                       start gate now b = (true, b1) /\ mode b1 = Probation
                       /\ do_ f gate now later b = Some o
                       /\ invocations o = 1%nat /\ delivered o = result_of f).
  { intros b1 E Hm1 Hne1; exists b1; rewrite do_start_settle, E.
    destruct (succeeds f).
    - destruct (addResult_probation_success later b1 Hm1 Hne1) as (b2 & E2 & _).
      unfold settle; rewrite E2; eexists; repeat split; assumption.
    - destruct (addResult_probation_failure later b1 Hm1 Hne1) as (b2 & E2 & _).
      unfold settle; rewrite E2; eexists; repeat split; assumption. }
  split; [|split].
  - intros Ht Hc.
    destruct (start_rejects gate now b Hm) as (b' & E & Hm' & _ & Hn);
      [intros _; exact Ht | intros Ho; destruct Hc; lia |].
    exists b'; rewrite do_start_settle, E; unfold tripped_error; rewrite Hn; auto.
  - intros Ht Hu Hne.
    destruct (start_lets_through gate now b Hm) as (b1 & E & Hm1 & Hh1);
      [intros _; exact Ht | intros Ho; lia |].
    apply (Hprobe b1 E Hm1); congruence.
  - intros Ho; split.
    + intros Ht; rewrite do_start_settle, (start_over gate now b Ho).
      destruct (Z.leb_spec (gate + checkInterval b) now); [lia|].
      eexists; split; [unfold tripped_error; frame; reflexivity|].
      frame; auto.
    + intros Ht Hne.
      destruct (start_lets_through gate now b Hm) as (b1 & E & Hm1 & Hh1);
        [intros Hu; lia | intros _; exact Ht |].
      apply (Hprobe b1 E Hm1); congruence.
Qed.

Lemma tripped_admission_witness :
  let b := trip 0 (new_CircuitBreaker "test" options_interval50) in
  mode b = Tripped
  /\ (exists b',
        do_ succeeding 10 10 20 b
        = Some (mkOutcome b' 0%nat (Failure "Circuit breaker tripped: test"))
        /\ mode b' = Tripped)
  /\ (exists b1 o,
        start 50 50 b = (true, b1) /\ mode b1 = Probation
        /\ do_ succeeding 50 50 60 b = Some o
        /\ invocations o = 1%nat /\ delivered o = Value 3)
  /\ exists w,
       run [CallStart 0 0; CallStart 0 0; CallStart 0 0; CallStart 0 0]
           (new_CircuitBreaker "test" options_max3) = Some w
       /\ mode w = Tripped /\ maxConcurrent w < concurrent w + 1
       /\ (exists b',
             do_ succeeding 50 60 70 w
             = Some (mkOutcome b' 0%nat (Failure "Circuit breaker tripped: test"))
             /\ mode b' = Tripped /\ lastCheck b' = 50)
       /\ (exists b1 o,
             start 50 100 w = (true, b1) /\ mode b1 = Probation
             /\ do_ succeeding 50 100 110 w = Some o
             /\ invocations o = 1%nat /\ delivered o = Value 3).
Proof.
  intros b; split; [reflexivity|]; split; [|split].
  - apply (proj1 (tripped_admission succeeding 10 10 20 b eq_refl));
      [reflexivity | left; vm_compute; discriminate].
  - apply (proj1 (proj2 (tripped_admission succeeding 50 50 60 b eq_refl)));
      [vm_compute; discriminate | vm_compute; discriminate | discriminate].
  - eexists; split; [vm_compute; reflexivity|].
    split; [reflexivity|]; split; [reflexivity|]; split.
    + match goal with
      | |- exists b', do_ _ _ _ _ ?w = _ /\ _ =>
          apply (proj1 (proj2 (proj2 (tripped_admission succeeding 50 60 70 w eq_refl))
                         eq_refl))
      end; reflexivity.
    + match goal with
      | |- exists b1 o, start _ _ ?w = _ /\ _ =>
          apply (proj2 (proj2 (proj2 (tripped_admission succeeding 50 100 110 w eq_refl))
                         eq_refl))
      end; [vm_compute; discriminate | discriminate].
Defined.

(** C3.  When the mode is Probation as the outcome of an admitted call is
    recorded, a success sets the mode to Normal and a failure sets it to
    Tripped with the trip time set to the current time, whatever the history
    and [tripRate] are; so does a whole [do] admitted from Probation. *)
Theorem probation_outcome {T : Type} (f : Operation T) (gate now later : Z) (b : CircuitBreaker) :
  mode b = Probation -> history b <> [] ->
  (exists b', settle true later b = Some b' /\ mode b' = Normal)
  /\ (exists b', settle false later b = Some b'
                 /\ mode b' = Tripped /\ lastCheck b' = later)
  /\ (forall b1, start gate now b = (true, b1) ->
        exists o, do_ f gate now later b = Some o
                  /\ delivered o = result_of f
                  /\ if succeeds f then mode (breaker o) = Normal
                     else mode (breaker o) = Tripped /\ lastCheck (breaker o) = later).
Proof.
  intros Hm Hne; split; [|split].
  - destruct (addResult_probation_success later b Hm Hne) as (b' & E & Hm' & _).
    unfold settle; rewrite E; eexists; split; [reflexivity|]; frame; assumption.
  - destruct (addResult_probation_failure later b Hm Hne) as (b' & E & Hm' & Hl).
    unfold settle; rewrite E; eexists; split; [reflexivity|]; frame; auto.
  - intros b1 E1.
    destruct (start_ok_from_probation gate now b b1 Hm E1) as (Hm1 & Hh1).
    assert (Hne1 : history b1 <> []) by congruence.
    rewrite do_start_settle, E1; unfold settle.
    destruct (succeeds f).
    + destruct (addResult_probation_success later b1 Hm1 Hne1) as (b' & E & Hm' & _).
      rewrite E; eexists; split; [reflexivity|]; cbn [breaker delivered]; frame; auto.
    + destruct (addResult_probation_failure later b1 Hm1 Hne1) as (b' & E & Hm' & Hl).
      rewrite E; eexists; split; [reflexivity|]; cbn [breaker delivered]; frame; auto.
Qed.

Lemma probation_outcome_witness :
  let b := snd (check 50 (trip 0 (new_CircuitBreaker "test" options_interval50))) in
  mode b = Probation /\ history b <> []
  /\ (exists b', settle true 60 b = Some b' /\ mode b' = Normal)
  /\ (exists b', settle false 60 b = Some b'
                 /\ mode b' = Tripped /\ lastCheck b' = 60)
  /\ fst (start 55 55 b) = true
  /\ (exists o, do_ throwing 55 55 60 b = Some o
                /\ delivered o = Failure "oh noes"
                /\ mode (breaker o) = Tripped /\ lastCheck (breaker o) = 60).
Proof.
  intros b; split; [reflexivity|]; split; [discriminate|].
  pose proof (probation_outcome throwing 55 55 60 b eq_refl
                ltac:(discriminate)) as (Hsuccess & Hfailure & Hdo).
  split; [exact Hsuccess|]; split; [exact Hfailure|]; split; [reflexivity|].
  apply (Hdo (snd (start 55 55 b))); vm_compute; reflexivity.
Defined.

(** C10.  An outcome recorded while the mode is Tripped leaves the mode
    Tripped: a success changes neither mode nor trip time; a failure whose
    updated success rate is below [tripRate] trips again and overwrites the
    trip time with the current time, and otherwise leaves it.  Nor do the
    gate, [finishedConcurrent()] or [trip()] leave Tripped: within a call
    only the admission check does. *)
Theorem tripped_outcome (now : Z) (b : CircuitBreaker) :
  mode b = Tripped -> history b <> [] ->
  (exists b', settle true now b = Some b'
              /\ mode b' = Tripped /\ lastCheck b' = lastCheck b)
  /\ (exists h b', record_result (-1) (history b) = Some h
                   /\ settle false now b = Some b'
                   /\ mode b' = Tripped
                   /\ lastCheck b' =
                      if JS.lt (successRate (set_history h b)) (tripRate b)
                      then now else lastCheck b)
  /\ mode (addConcurrent now b) = Tripped
  /\ mode (finishedConcurrent b) = Tripped
  /\ mode (trip now b) = Tripped.
Proof.
  intros Hm Hne; split; [|split; [|split; [|split]]].
  - destruct (addResult_tripped_success now b Hm Hne) as (b' & E & Hm' & Hl).
    unfold settle; rewrite E; eexists; split; [reflexivity|]; frame; auto.
  - destruct (addResult_tripped_failure now b Hm Hne) as (h & b' & Eh & E & Hm' & Hl).
    exists h; unfold settle; rewrite E; eexists; split; [exact Eh|].
    split; [reflexivity|]; frame; split; [exact Hm'|exact Hl].
  - unfold addConcurrent; cbv zeta; destruct (_ >? _); frame; auto.
  - frame; exact Hm.
  - apply trip_mode.
Qed.

Lemma tripped_outcome_witness :
  let b := trip 4 (new_CircuitBreaker "test" options_window5) in
  mode b = Tripped /\ history b <> []
  /\ (exists b', settle true 9 b = Some b'
                 /\ mode b' = Tripped /\ lastCheck b' = lastCheck b)
  /\ (exists h b', record_result (-1) (history b) = Some h
                   /\ settle false 9 b = Some b'
                   /\ mode b' = Tripped
                   /\ lastCheck b' =
                      if JS.lt (successRate (set_history h b)) (tripRate b)
                      then 9 else lastCheck b)
  /\ mode (addConcurrent 9 b) = Tripped
  /\ mode (finishedConcurrent b) = Tripped
  /\ mode (trip 9 b) = Tripped.
Proof.
  intros b; split; [reflexivity|]; split; [discriminate|].
  apply (tripped_outcome 9 b); [reflexivity | discriminate].
Defined.

(** * The concurrency gate *)

(** C4, as the code has it.  [trip()] and [check()] each read the clock.
    Three calls are in flight against a ceiling of three, [checkInterval]
    is 1 ms.  A fourth call trips the gate at 1000; its admission check
    reads 1001: the interval has passed, the mode flips to Probation and
    the call that exceeded the ceiling is let through. *)
Lemma over_ceiling_call_let_through :
  exists b o,
    run [CallStart 0 0; CallStart 1 1; CallStart 2 2]
        (new_CircuitBreaker "test" options_max3_interval1) = Some b
    /\ maxConcurrent b < concurrent b + 1
    /\ 0 < checkInterval b
    /\ mode (addConcurrent 1000 b) = Tripped
    /\ do_ succeeding 1000 1001 1002 b = Some o
    /\ invocations o = 1%nat
    /\ delivered o = Value 3.
Proof.
  do 2 eexists; split; [vm_compute; reflexivity|].
  split; [reflexivity|]; split; [reflexivity|]; split; [reflexivity|].
  split; [vm_compute; reflexivity|]; split; reflexivity.
Qed.

(** C4, amended.  Every call start raises the in-flight counter first, and
    admission is decided on the state the gate leaves.  When the raised
    counter exceeds [maxConcurrent] the gate trips at once, whatever the
    mode and the history: mode Tripped, trip time the gate's clock reading.
    That very call is then rejected by both wrappers, the operation is not
    invoked and the counter is given back, when the admission check reads
    the clock less than [checkInterval] after the gate's reading: so it is
    with a positive [checkInterval] whenever both readings are the same
    instant.  When [checkInterval] or more lies between the two readings
    the call is let through in Probation. *)
Theorem concurrency_gate {T : Type} (f : Operation T) (gate now later : Z) (b : CircuitBreaker) :
  (concurrent (addConcurrent gate b) = concurrent b + 1
   /\ fst (start gate now b) = fst (check now (addConcurrent gate b)))
  /\ (maxConcurrent b < concurrent b + 1 ->
      (mode (addConcurrent gate b) = Tripped
       /\ lastCheck (addConcurrent gate b) = gate
       /\ history (addConcurrent gate b) = history b)
      /\ (now < gate + checkInterval b ->
          exists b',
            do_ f gate now later b
            = Some (mkOutcome b' 0%nat
                      (Failure (String.append "Circuit breaker tripped: " (name b))))
            /\ doCallback (as_callback f) gate now later b = do_ f gate now later b
            /\ mode b' = Tripped /\ lastCheck b' = gate
            /\ concurrent b' = concurrent b)
      /\ (0 < checkInterval b ->
          exists b',
            do_ f gate gate later b
            = Some (mkOutcome b' 0%nat
                      (Failure (String.append "Circuit breaker tripped: " (name b))))
            /\ mode b' = Tripped)
      /\ (gate + checkInterval b <= now ->
          fst (start gate now b) = true
          /\ mode (snd (start gate now b)) = Probation)).
Proof.
  split; [split|].
  - apply addConcurrent_frame.
  - unfold start; cbv zeta.
    destruct (check now (addConcurrent gate b)) as [[|] b2]; reflexivity.
  - intros Ho.
    assert (Hrej : forall t, t < gate + checkInterval b ->
              do_ f gate t later b
              = Some (mkOutcome
                        (finishedConcurrent (trip gate (set_concurrent (concurrent b + 1) b)))
                        0%nat
                        (Failure (String.append "Circuit breaker tripped: " (name b))))
              /\ doCallback (as_callback f) gate t later b = do_ f gate t later b).
    { intros t Ht; rewrite doCallback_start_settle, do_start_settle, (start_over gate t b Ho).
      destruct (Z.leb_spec (gate + checkInterval b) t); [lia|].
      split; [|reflexivity]; unfold tripped_error; frame; reflexivity. }
    split; [|split; [|split]].
    + rewrite (addConcurrent_over gate b Ho); frame; auto.
    + intros Ht; destruct (Hrej now Ht) as (E & Ecb).
      eexists; split; [exact E|]; split; [exact Ecb|]; frame; repeat split; lia.
    + intros Hci; destruct (Hrej gate ltac:(lia)) as (E & _).
      eexists; split; [exact E|]; frame; reflexivity.
    + intros Ht; rewrite (start_over gate now b Ho).
      destruct (Z.leb_spec (gate + checkInterval b) now); [|lia].
      split; reflexivity.
Qed.

Lemma concurrency_gate_witness :
  exists b,
    run [CallStart 0 0; CallStart 1 1; CallStart 2 2]
        (new_CircuitBreaker "test" options_max3) = Some b
    /\ maxConcurrent b < concurrent b + 1
    /\ mode b = Normal
    /\ mode (addConcurrent 3 b) = Tripped
    /\ lastCheck (addConcurrent 3 b) = 3
    /\ (exists b',
          do_ succeeding 3 4 9 b
          = Some (mkOutcome b' 0%nat (Failure "Circuit breaker tripped: test"))
          /\ doCallback (as_callback succeeding) 3 4 9 b = do_ succeeding 3 4 9 b
          /\ mode b' = Tripped /\ lastCheck b' = 3
          /\ concurrent b' = concurrent b)
    /\ (exists b',
          do_ succeeding 3 3 9 b
          = Some (mkOutcome b' 0%nat (Failure "Circuit breaker tripped: test"))
          /\ mode b' = Tripped)
    /\ fst (start 3 53 b) = true
    /\ mode (snd (start 3 53 b)) = Probation.
Proof.
  eexists; split; [vm_compute; reflexivity|].
  split; [reflexivity|]; split; [reflexivity|].
  match goal with
  | |- mode (addConcurrent _ ?b) = _ /\ _ =>
      pose proof (proj2 (concurrency_gate succeeding 3 4 9 b) eq_refl)
        as (Hgate & Hcall & Hsame & _);
      pose proof (proj2 (concurrency_gate succeeding 3 53 9 b) eq_refl)
        as (_ & _ & _ & Hlate)
  end.
  split; [apply Hgate|]; split; [apply Hgate|].
  split; [apply Hcall; reflexivity|].
  split; [apply Hsame; reflexivity|].
  apply Hlate; vm_compute; discriminate.
Defined.

(** * Probation *)

(** C9, as the code has it.  The breaker was tripped at time 0 with
    [checkInterval] = 50.  The call made at time 50 is admitted and puts the
    breaker in Probation; a second call made at time 51, while the first is
    still in flight and the mode is still Probation, is admitted as well and
    its operation is invoked. *)
Lemma second_call_accepted_in_probation :
  exists b1 b2 o,
    start 50 50 (trip 0 (new_CircuitBreaker "test" options_interval50)) = (true, b1)
    /\ mode b1 = Probation
    /\ start 51 51 b1 = (true, b2)
    /\ mode b2 = Probation
    /\ concurrent b2 = 2
    /\ do_ succeeding 51 51 52 b1 = Some o
    /\ invocations o = 1%nat.
Proof.
  do 3 eexists; split; [vm_compute; reflexivity|].
  split; [reflexivity|]; split; [vm_compute; reflexivity|].
  split; [reflexivity|]; split; [reflexivity|].
  split; [vm_compute; reflexivity | reflexivity].
Qed.

(** C9, amended.  While the mode is Probation every call that stays within
    [maxConcurrent] is admitted, not only the next one: the admission check
    holds back nothing unless the mode is Tripped, and it leaves the mode
    Probation until an outcome is recorded or the breaker trips. *)
Theorem probation_accepts_every_call {T : Type} (f : Operation T) (gate now later : Z)
        (b : CircuitBreaker) :
  mode b = Probation -> concurrent b + 1 <= maxConcurrent b -> history b <> [] ->
  check now b = (true, b)
  /\ (exists b1, start gate now b = (true, b1)
                 /\ mode b1 = Probation /\ concurrent b1 = concurrent b + 1)
  /\ (exists o, do_ f gate now later b = Some o /\ invocations o = 1%nat).
Proof.
  intros Hm Hu Hne; split; [|split].
  - apply check_not_tripped; congruence.
  - eexists; split; [apply start_in_probation; assumption|]; frame; auto.
  - rewrite do_start_settle, (start_in_probation gate now b Hm Hu); unfold settle.
    destruct (record_result_some (if succeeds f then 1 else -1)
                (history (set_concurrent (concurrent b + 1) b)) Hne) as (h & E).
    assert (Hsome : exists b3, addResult (if succeeds f then 1 else -1) later
                                 (set_concurrent (concurrent b + 1) b) = Some b3).
    { unfold addResult; rewrite E.
      repeat match goal with |- context [if ?c then _ else _] => destruct c end; eauto. }
    destruct Hsome as (b3 & E3); rewrite E3; eauto.
Qed.

Lemma probation_accepts_every_call_witness :
  exists b,
    start 50 50 (trip 0 (new_CircuitBreaker "test" options_interval50)) = (true, b)
    /\ mode b = Probation /\ concurrent b + 1 <= maxConcurrent b /\ history b <> []
    /\ check 51 b = (true, b)
    /\ (exists b1, start 51 51 b = (true, b1)
                   /\ mode b1 = Probation /\ concurrent b1 = concurrent b + 1)
    /\ (exists o, do_ failing 51 51 52 b = Some o /\ invocations o = 1%nat).
Proof.
  eexists; split; [vm_compute; reflexivity|].
  split; [reflexivity|]; split; [vm_compute; discriminate|]; split; [discriminate|].
  apply (probation_accepts_every_call failing 51 51 52);
    [reflexivity | vm_compute; discriminate | discriminate].
Defined.

(** * The scenario of the test suite *)

(** C5.  Window 5, trip rate 0.5, fresh breaker; the calls are awaited one
    after the other; for call [i] the gate would read the clock at [g_i],
    the admission check reads it at [s_i], the outcome is recorded at [e_i].
    Failure, success, failure, success, failure give the success rates 0.8,
    0.8, 0.6, 0.6, 0.4; after the fifth outcome the mode is Tripped, and the
    next call, made before the default 30 s interval has run out, is
    rejected with the breaker-tripped error without invoking its
    operation. *)
Theorem scenario_window5 (g1 s1 e1 g2 s2 e2 g3 s3 e3 g4 s4 e4 g5 s5 e5 g6 s6 e6 : Z) :
  s6 < e5 + DEFAULT_CHECK_INTERVAL ->
  exists o1 o2 o3 o4 o5 o6,
    do_ failing g1 s1 e1 (new_CircuitBreaker "test" options_window5) = Some o1
    /\ successRate (breaker o1) = JS.Finite (4 # 5)
    /\ do_ succeeding g2 s2 e2 (breaker o1) = Some o2
    /\ successRate (breaker o2) = JS.Finite (4 # 5)
    /\ do_ failing g3 s3 e3 (breaker o2) = Some o3
    /\ successRate (breaker o3) = JS.Finite (3 # 5)
    /\ do_ succeeding g4 s4 e4 (breaker o3) = Some o4
    /\ successRate (breaker o4) = JS.Finite (3 # 5)
    /\ do_ failing g5 s5 e5 (breaker o4) = Some o5
    /\ successRate (breaker o5) = JS.Finite (2 # 5)
    /\ mode (breaker o5) = Tripped
    /\ do_ succeeding g6 s6 e6 (breaker o5) = Some o6
    /\ invocations o6 = 0%nat
    /\ delivered o6 = Failure "Circuit breaker tripped: test".
Proof.
  intros Hsoon.
  destruct (do_ failing g1 s1 e1 (new_CircuitBreaker "test" options_window5))
    as [o1|] eqn:E1; [|vm_compute in E1; discriminate E1].
  exists o1; vm_compute in E1; injection E1 as <-.
  destruct (do_ succeeding g2 s2 e2 _) as [o2|] eqn:E2 at 1;
    [|vm_compute in E2; discriminate E2].
  exists o2; vm_compute in E2; injection E2 as <-.
  destruct (do_ failing g3 s3 e3 _) as [o3|] eqn:E3 at 1;
    [|vm_compute in E3; discriminate E3].
  exists o3; vm_compute in E3; injection E3 as <-.
  destruct (do_ succeeding g4 s4 e4 _) as [o4|] eqn:E4 at 1;
    [|vm_compute in E4; discriminate E4].
  exists o4; vm_compute in E4; injection E4 as <-.
  destruct (do_ failing g5 s5 e5 _) as [o5|] eqn:E5 at 1;
    [|vm_compute in E5; discriminate E5].
  exists o5; vm_compute in E5; injection E5 as <-.
  cbn [breaker].
  match goal with
  | |- exists o6, _ /\ _ /\ _ /\ _ /\ _ /\ _ /\ _ /\ _ /\ _ /\ _ /\ _
                  /\ do_ _ _ _ _ ?b = _ /\ _ =>
      destruct (start_rejects g6 s6 b eq_refl (fun _ => Hsoon))
        as (b' & E6 & _ & _ & Hn);
      [intros Ho; vm_compute in Ho; discriminate Ho|];
      exists (mkOutcome b' 0%nat (Failure (tripped_error b')));
      rewrite do_start_settle, E6; unfold tripped_error; rewrite Hn
  end.
  repeat split.
Qed.

Lemma scenario_window5_witness :
  50 < 40 + DEFAULT_CHECK_INTERVAL
  /\ exists o1 o2 o3 o4 o5 o6,
       do_ failing 0 0 5 (new_CircuitBreaker "test" options_window5) = Some o1
       /\ successRate (breaker o1) = JS.Finite (4 # 5)
       /\ do_ succeeding 10 10 15 (breaker o1) = Some o2
       /\ successRate (breaker o2) = JS.Finite (4 # 5)
       /\ do_ failing 20 20 25 (breaker o2) = Some o3
       /\ successRate (breaker o3) = JS.Finite (3 # 5)
       /\ do_ succeeding 30 30 35 (breaker o3) = Some o4
       /\ successRate (breaker o4) = JS.Finite (3 # 5)
       /\ do_ failing 38 38 40 (breaker o4) = Some o5
       /\ successRate (breaker o5) = JS.Finite (2 # 5)
       /\ mode (breaker o5) = Tripped
       /\ do_ succeeding 50 50 55 (breaker o5) = Some o6
       /\ invocations o6 = 0%nat
       /\ delivered o6 = Failure "Circuit breaker tripped: test".
Proof.
  split; [reflexivity|].
  apply (scenario_window5 0 0 5 10 10 15 20 20 25 30 30 35 38 38 40 50 50 55); reflexivity.
Defined.

(** * The two entry points *)

(** What holds on every path of [doCallback] that ends in the callback, and
    on the rejected one. *)
Lemma doCallback_concurrent_restored {T : Type} (p : Promise T) (gate now later : Z)
      (b : CircuitBreaker) (o : Outcome T) :
  doCallback (as_callback (Returns p)) gate now later b = Some o ->
  concurrent (breaker o) = concurrent b.
Proof.
  rewrite doCallback_agrees_with_do; apply do_concurrent_restored.
Qed.

(** An operation that throws before calling back: [doCallback] has counted
    the call and never gives the count back, and records no outcome. *)
Lemma doCallback_throw_general {T : Type} (e : Error) (gate now later : Z)
      (b b1 : CircuitBreaker) :
  start gate now b = (true, b1) ->
  doCallback (@CbThrows T e) gate now later b = Some (mkOutcome b1 1%nat (Failure e))
  /\ concurrent b1 = concurrent b + 1
  /\ history b1 = history b.
Proof.
  intros E; rewrite doCallback_start_settle, E; split; [reflexivity|].
  pose proof (start_concurrent gate now b) as Hc.
  pose proof (start_frame gate now b) as (Hh & _).
  rewrite E in Hc, Hh; cbn [fst snd] in *; auto.
Qed.

(** C6, at the failing input.  On a fresh breaker, [doCallback] with an
    operation that throws before calling back leaves the in-flight counter
    at 1 and the history untouched; [do] with an operation that throws
    records one failure and brings the counter back to 0. *)
Theorem doCallback_throw_keeps_counter :
  exists o o',
    doCallback (@CbThrows Z "oh noes") 0 0 1 (new_CircuitBreaker "test" no_options) = Some o
    /\ invocations o = 1%nat
    /\ concurrent (breaker o) = 1
    /\ history (breaker o) = [100]
    /\ do_ throwing 0 0 1 (new_CircuitBreaker "test" no_options) = Some o'
    /\ invocations o' = 1%nat
    /\ concurrent (breaker o') = 0
    /\ history (breaker o') = [99; -1].
Proof.
  do 2 eexists; split; [vm_compute; reflexivity|].
  split; [reflexivity|]; split; [reflexivity|]; split; [reflexivity|].
  split; [vm_compute; reflexivity|].
  split; [reflexivity|]; split; reflexivity.
Qed.

(** * Further properties of the sliding window *)

Lemma step_keeps_history (e : Event) (b b' : CircuitBreaker) :
  is_clear e = false -> recorded [e] = [] -> step e b = Some b' ->
  history b' = history b.
Proof.
  destruct e as [gate now | success now | | now | now]; cbn [is_clear recorded step];
    try discriminate; intros _ _ [= <-].
  - apply start_frame.
  - apply trip_history.
  - apply check_frame.
Qed.

Lemma tl_snoc_app (a rest : list Z) (u : Z) :
  tl (a ++ [u]) ++ rest = tl (a ++ u :: rest).
Proof. destruct a as [|x a]; cbn [app tl]; [reflexivity|]. rewrite <- app_assoc; reflexivity. Qed.

Lemma skipn_tl (n : nat) (l : list Z) : skipn n (tl l) = skipn (S n) l.
Proof. destruct l; [destruct n; reflexivity | reflexivity]. Qed.

Lemma run_units (es : list Event) :
  forall b, well_formed b -> existsb is_clear es = false ->
  exists b', run es b = Some b'
             /\ well_formed b' /\ window b' = window b
             /\ units (history b')
                = skipn (List.length (recorded es)) (units (history b) ++ recorded es).
Proof.
  induction es as [|e es IH]; intros b Hwf Hnc.
  - exists b; cbn [run recorded List.length skipn]; rewrite app_nil_r; auto.
  - cbn [existsb] in Hnc; apply orb_false_iff in Hnc; destruct Hnc as (He & Hes).
    destruct (step_well_formed e b Hwf) as (b1 & E1 & Hwf1 & Hw1).
    destruct (IH b1 Hwf1 Hes) as (b' & E' & Hwf' & Hw' & Hu).
    exists b'; cbn [run]; rewrite E1; split; [exact E'|].
    split; [exact Hwf'|]; split; [congruence|].
    rewrite Hu; destruct e as [gate now | success now | | now | now];
      try discriminate He; cbn [recorded].
    + rewrite (step_keeps_history _ b b1 He eq_refl E1); reflexivity.
    + cbn [step] in E1.
      destruct (settle_well_formed success now b Hwf) as (b2 & E2 & _ & _ & _ & Hu2).
      rewrite E2 in E1; injection E1 as ->.
      rewrite Hu2; cbn [List.length]; rewrite tl_snoc_app, skipn_tl; reflexivity.
    + rewrite (step_keeps_history _ b b1 He eq_refl E1); reflexivity.
    + rewrite (step_keeps_history _ b b1 He eq_refl E1); reflexivity.
Qed.

Lemma positives_successes (h : list Z) : positives h = successes (units h).
Proof.
  unfold successes; induction h as [|x h IH]; [reflexivity|].
  change (units (x :: h)) with (repeat (Z.sgn x) (Z.abs_nat x) ++ units h).
  rewrite count_occ_app, Nat2Z.inj_add, <- IH; cbn [positives]; f_equal.
  destruct (Z.ltb_spec x 0).
  - rewrite count_occ_repeat_neq by lia; reflexivity.
  - destruct (Z.eq_dec x 0) as [-> | Hx]; [reflexivity|].
    rewrite count_occ_repeat_eq by lia; lia.
Qed.

Lemma runs_at_most_magnitude (h : list Z) :
  forallb nonzero h = true -> Z.of_nat (List.length h) <= magnitude h.
Proof.
  induction h as [|x h IH]; cbn [forallb List.length magnitude]; [lia|].
  rewrite andb_true_iff, nonzero_true; intros (Hx & Hh); specialize (IH Hh); lia.
Qed.

(** Decoding then encoding a run of [n + 1] units of one sign in front of
    runs that start with the other sign. *)
Lemma encode_repeat (s : Z) (us : list Z) (n : nat) :
  s = 1 \/ s = -1 ->
  match encode us with
  | x :: _ => Z.sgn x <> s
  | [] => True
  end ->
  encode (repeat s (S n) ++ us) = (s * Z.of_nat (S n)) :: encode us.
Proof.
  intros Hs Hhead; induction n as [|n IH].
  - cbn [repeat app encode].
    destruct (encode us) as [|x runs]; [f_equal; lia|].
    destruct (Z.eqb_spec (Z.sgn x) (Z.sgn s)); [lia|f_equal; lia].
  - change (repeat s (S (S n)) ++ us) with (s :: (repeat s (S n) ++ us)).
    cbn [encode]; rewrite IH.
    destruct (Z.eqb_spec (Z.sgn (s * Z.of_nat (S n))) (Z.sgn s)) as [_ | Hne].
    + f_equal; lia.
    + exfalso; apply Hne; destruct Hs as [-> | ->]; lia.
Qed.

Lemma encode_units_ok (h : list Z) :
  forallb nonzero h = true -> alternating h = true -> encode (units h) = h.
Proof.
  induction h as [|x h IH]; [reflexivity|].
  cbn [forallb]; rewrite andb_true_iff, nonzero_true; intros (Hx & Hnz) Halt.
  change (units (x :: h)) with (repeat (Z.sgn x) (Z.abs_nat x) ++ units h).
  destruct (Z.abs_nat x) as [|n] eqn:En; [lia|].
  specialize (IH Hnz (alternating_tail _ _ Halt)).
  rewrite encode_repeat.
  - rewrite IH; f_equal; destruct x; lia.
  - destruct x; cbn; lia.
  - rewrite IH; destruct h as [|y h]; [exact I|].
    cbn [alternating] in Halt; apply andb_true_iff in Halt; destruct Halt as (Hxy & _).
    apply negb_true_iff, Z.eqb_neq in Hxy; congruence.
Qed.

(** X1.  Started from a well-formed breaker, a trace without [clear()]
    leaves in the history exactly the last [window] outcomes: the decoded
    units are the old units followed by the units recorded along the trace,
    with as many dropped at the oldest end as were recorded. *)
Theorem window_holds_last_outcomes (es : list Event) (b : CircuitBreaker) :
  well_formed b -> existsb is_clear es = false ->
  exists b', run es b = Some b'
             /\ units (history b')
                = skipn (List.length (recorded es)) (units (history b) ++ recorded es)
             /\ Z.of_nat (List.length (units (history b'))) = window b.
Proof.
  intros Hwf Hnc.
  destruct (run_units es b Hwf Hnc) as (b' & E & (Hw' & Hok') & Hwin & Hu).
  exists b'; split; [exact E|]; split; [exact Hu|].
  apply history_ok_iff in Hok'; destruct Hok' as (Hm & _).
  rewrite units_length; congruence.
Qed.

Lemma window_holds_last_outcomes_witness :
  let b := new_CircuitBreaker "test" options_window5 in
  let es := [CallStart 0 0; CallSettle false 1; CallTrip 2; CallSettle true 3;
             CallSettle false 4] in
  well_formed b /\ existsb is_clear es = false
  /\ exists b', run es b = Some b'
                /\ units (history b')
                   = skipn (List.length (recorded es)) (units (history b) ++ recorded es)
                /\ Z.of_nat (List.length (units (history b'))) = window b.
Proof.
  intros b es.
  assert (Hwf : well_formed b) by (split; reflexivity).
  split; [exact Hwf|]; split; [reflexivity|].
  apply (window_holds_last_outcomes es b Hwf); reflexivity.
Defined.

(** X2.  On a well-formed breaker the success rate is the number of
    successes among the [window] decoded outcomes, divided by [window]. *)
Theorem rate_counts_successes (b : CircuitBreaker) :
  well_formed b ->
  successRate b = JS.div (successes (units (history b))) (window b).
Proof.
  intros Hwf; rewrite (successRate_well_formed b Hwf), positives_successes; reflexivity.
Qed.

Lemma rate_counts_successes_witness :
  well_formed (new_CircuitBreaker "test" options_window5)
  /\ successRate (new_CircuitBreaker "test" options_window5)
     = JS.div (successes (units (history (new_CircuitBreaker "test" options_window5))))
              (window (new_CircuitBreaker "test" options_window5)).
Proof.
  assert (Hwf : well_formed (new_CircuitBreaker "test" options_window5))
    by (split; reflexivity).
  split; [exact Hwf|].
  apply (rate_counts_successes _ Hwf).
Defined.

(** X3.  The array never outgrows the window: after any trace on a
    well-formed breaker the history holds at least one run and at most
    [window] runs. *)
Theorem history_length_bounded (es : list Event) (b : CircuitBreaker) :
  well_formed b ->
  exists b', run es b = Some b'
             /\ 1 <= Z.of_nat (List.length (history b')) <= window b.
Proof.
  intros Hwf.
  destruct (run_well_formed es b Hwf) as (b' & E & (Hw' & Hok') & Hwin).
  exists b'; split; [exact E|].
  apply history_ok_iff in Hok'; destruct Hok' as (Hm & Hnz & _).
  pose proof (runs_at_most_magnitude _ Hnz) as Hle.
  split; [|lia].
  destruct (history b'); [cbn [magnitude] in Hm; lia | cbn [List.length]; lia].
Qed.

Lemma history_length_bounded_witness :
  let b := new_CircuitBreaker "test" options_window5 in
  let es := [CallSettle false 1; CallSettle true 2; CallSettle false 3;
             CallSettle true 4; CallSettle false 5; CallSettle true 6] in
  well_formed b
  /\ exists b', run es b = Some b'
                /\ 1 <= Z.of_nat (List.length (history b')) <= window b.
Proof.
  intros b es.
  assert (Hwf : well_formed b) by (split; reflexivity).
  split; [exact Hwf|].
  apply (history_length_bounded es b Hwf).
Defined.

(** X4.  After a trace without [clear()] on a well-formed breaker the
    history array is the run-length encoding of the last [window] outcomes:
    it is determined by those outcomes alone. *)
Theorem history_is_encoding (es : list Event) (b : CircuitBreaker) :
  well_formed b -> existsb is_clear es = false ->
  exists b', run es b = Some b'
             /\ history b'
                = encode (skipn (List.length (recorded es))
                                (units (history b) ++ recorded es)).
Proof.
  intros Hwf Hnc.
  destruct (run_units es b Hwf Hnc) as (b' & E & (_ & Hok') & _ & Hu).
  exists b'; split; [exact E|].
  apply history_ok_iff in Hok'; destruct Hok' as (_ & Hnz & Halt).
  rewrite <- Hu; symmetry; apply encode_units_ok; assumption.
Qed.

Lemma history_is_encoding_witness :
  let b := new_CircuitBreaker "test" options_window5 in
  let es := [CallStart 0 0; CallSettle false 1; CallSettle false 2; CallCheck 3;
             CallSettle true 4] in
  well_formed b /\ existsb is_clear es = false
  /\ exists b', run es b = Some b'
                /\ history b'
                   = encode (skipn (List.length (recorded es))
                                   (units (history b) ++ recorded es)).
Proof.
  intros b es.
  assert (Hwf : well_formed b) by (split; reflexivity).
  split; [exact Hwf|]; split; [reflexivity|].
  apply (history_is_encoding es b Hwf); reflexivity.
Defined.

(** * Further properties of the success rate *)

Lemma successRate_loop_bounds (w : Z) (h : list Z) :
  forall score count,
    0 <= score <= count ->
    0 <= fst (successRate_loop w h score count) <= snd (successRate_loop w h score count).
Proof.
  induction h as [|x h IH]; intros score count Hsc; cbn [successRate_loop].
  - exact Hsc.
  - destruct (count <=? w); [|exact Hsc].
    destruct (Z.ltb_spec x 0); apply IH; lia.
Qed.

(** X5.  Whatever the history and the window are (also for a breaker
    constructed with a window that is not positive), the success rate is
    either [NaN], exactly when the walk counted nothing, or a finite number
    between 0 and 1: never infinite, never negative. *)
Theorem successRate_NaN_or_unit (b : CircuitBreaker) :
  (successRate b = JS.NaN
   /\ snd (successRate_loop (window b) (history b) 0 0) = 0)
  \/ (JS.in_unit_interval (successRate b)
      /\ 0 < snd (successRate_loop (window b) (history b) 0 0)).
Proof.
  unfold successRate.
  pose proof (successRate_loop_bounds (window b) (history b) 0 0 ltac:(lia)) as Hb.
  destruct (successRate_loop (window b) (history b) 0 0) as [score count].
  cbn [fst snd] in *.
  destruct (Z.eq_dec count 0) as [-> | Hc].
  - left; replace score with 0 by lia; split; reflexivity.
  - right; split; [apply div_in_unit_interval|]; lia.
Qed.

(** * Further properties of the wrappers *)

Lemma finished_after_added (b : CircuitBreaker) :
  finishedConcurrent (set_concurrent (concurrent b + 1) b) = b.
Proof.
  destruct b; unfold finishedConcurrent, set_concurrent; cbn [concurrent name mode
    checkInterval lastCheck maxConcurrent history window tripRate logger logged].
  f_equal; lia.
Qed.

Lemma start_not_tripped (gate now : Z) (b : CircuitBreaker) :
  mode b <> Tripped -> concurrent b + 1 <= maxConcurrent b ->
  start gate now b = (true, set_concurrent (concurrent b + 1) b).
Proof.
  intros Hm Hu; unfold start; cbv zeta.
  rewrite (addConcurrent_under gate b Hu), check_not_tripped by (frame; assumption).
  reflexivity.
Qed.

Lemma start_tripped_early (gate now : Z) (b : CircuitBreaker) :
  mode b = Tripped -> now < lastCheck b + checkInterval b ->
  concurrent b + 1 <= maxConcurrent b ->
  start gate now b = (false, b).
Proof.
  intros Hm Ht Hu; unfold start; cbv zeta.
  rewrite (addConcurrent_under gate b Hu), check_tripped_early by (frame; assumption).
  cbn [negb]; rewrite finished_after_added; reflexivity.
Qed.

Lemma addResult_some (r now : Z) (b : CircuitBreaker) :
  history b <> [] -> exists b', addResult r now b = Some b'.
Proof.
  intros Hne; destruct (record_result_some r _ Hne) as (h & E).
  unfold addResult; rewrite E.
  repeat match goal with |- context [if ?c then _ else _] => destruct c end; eauto.
Qed.

Lemma addResult_normal_success (now : Z) (b : CircuitBreaker) (h : list Z) :
  mode b = Normal -> record_result 1 (history b) = Some h ->
  addResult 1 now b = Some (set_history h b).
Proof.
  intros Hm E; unfold addResult; rewrite E; frame; rewrite Hm; reflexivity.
Qed.

Lemma addResult_normal_failure (now : Z) (b : CircuitBreaker) (h : list Z) :
  mode b = Normal -> record_result (-1) (history b) = Some h ->
  addResult (-1) now b
  = Some (if JS.lt (successRate (set_history h b)) (tripRate b)
          then trip now (set_history h b) else set_history h b).
Proof.
  intros Hm E; unfold addResult; rewrite E; frame; rewrite Hm.
  cbn [Z.gtb Z.ltb Z.compare Mode_eqb andb orb].
  destruct (JS.lt (successRate (set_history h b)) (tripRate b)); reflexivity.
Qed.

(** X6.  In Normal mode a recorded success changes the history and the
    in-flight counter and nothing else: no threshold is evaluated.  A
    recorded failure trips the breaker exactly when the updated success rate
    is below [tripRate], and otherwise likewise changes nothing else. *)
Theorem normal_outcome (now : Z) (b : CircuitBreaker) :
  mode b = Normal -> history b <> [] ->
  exists h1 h2,
    record_result 1 (history b) = Some h1
    /\ settle true now b = Some (finishedConcurrent (set_history h1 b))
    /\ record_result (-1) (history b) = Some h2
    /\ settle false now b
       = Some (finishedConcurrent
                 (if JS.lt (successRate (set_history h2 b)) (tripRate b)
                  then trip now (set_history h2 b) else set_history h2 b)).
Proof.
  intros Hm Hne.
  destruct (record_result_some 1 _ Hne) as (h1 & E1).
  destruct (record_result_some (-1) _ Hne) as (h2 & E2).
  exists h1, h2; unfold settle.
  rewrite (addResult_normal_success now b h1 Hm E1),
          (addResult_normal_failure now b h2 Hm E2); auto.
Qed.

Lemma normal_outcome_witness :
  let b := new_CircuitBreaker "test" options_window5 in
  mode b = Normal /\ history b <> []
  /\ exists h1 h2,
       record_result 1 (history b) = Some h1
       /\ settle true 7 b = Some (finishedConcurrent (set_history h1 b))
       /\ record_result (-1) (history b) = Some h2
       /\ settle false 7 b
          = Some (finishedConcurrent
                    (if JS.lt (successRate (set_history h2 b)) (tripRate b)
                     then trip 7 (set_history h2 b) else set_history h2 b)).
Proof.
  intros b; split; [reflexivity|]; split; [discriminate|].
  apply (normal_outcome 7 b); [reflexivity | discriminate].
Defined.

(** X7.  Outside Tripped mode and within the ceiling, [do] never turns a
    call away: the operation is invoked once, its value or its error reaches
    the caller unchanged, and the in-flight counter is back where it was;
    [doCallback] does the same for an operation that calls back. *)
Theorem call_goes_through {T : Type} (f : Operation T) (gate now later : Z) (b : CircuitBreaker) :
  mode b <> Tripped -> concurrent b + 1 <= maxConcurrent b -> history b <> [] ->
  (exists o, do_ f gate now later b = Some o
             /\ invocations o = 1%nat
             /\ delivered o = result_of f
             /\ concurrent (breaker o) = concurrent b)
  /\ (forall p : Promise T,
        doCallback (as_callback (Returns p)) gate now later b = do_ (Returns p) gate now later b).
Proof.
  intros Hm Hu Hne; split; [|intros p; apply doCallback_agrees_with_do].
  destruct (addResult_some (if succeeds f then 1 else -1) later
              (set_concurrent (concurrent b + 1) b) Hne) as (b1 & E1).
  assert (E : do_ f gate now later b
              = Some (mkOutcome (finishedConcurrent b1) 1%nat (result_of f))).
  { rewrite do_start_settle, (start_not_tripped gate now b Hm Hu); unfold settle.
    rewrite E1; reflexivity. }
  eexists; split; [exact E|]; split; [reflexivity|]; split; [reflexivity|].
  apply (do_concurrent_restored f gate now later b _ E).
Qed.

Lemma call_goes_through_witness :
  let b := new_CircuitBreaker "test" no_options in
  mode b <> Tripped /\ concurrent b + 1 <= maxConcurrent b /\ history b <> []
  /\ (exists o, do_ throwing 0 0 1 b = Some o
                /\ invocations o = 1%nat
                /\ delivered o = Failure "oh noes"
                /\ concurrent (breaker o) = concurrent b)
  /\ (forall p : Promise Z,
        doCallback (as_callback (Returns p)) 0 0 1 b = do_ (Returns p) 0 0 1 b).
Proof.
  intros b; split; [discriminate|]; split; [vm_compute; discriminate|].
  split; [discriminate|].
  apply (call_goes_through throwing 0 0 1 b);
    [discriminate | vm_compute; discriminate | discriminate].
Defined.

(** X8.  A call turned away while Tripped, within the ceiling, leaves the
    breaker exactly as it was: no outcome is recorded, the cool-down is not
    extended, the counter is restored; this holds for both wrappers and
    whatever the operation would have done. *)
Theorem rejected_call_changes_nothing {T : Type} (f : Operation T)
        (g : CallbackOperation T) (gate now later : Z) (b : CircuitBreaker) :
  mode b = Tripped -> now < lastCheck b + checkInterval b ->
  concurrent b + 1 <= maxConcurrent b ->
  do_ f gate now later b = Some (mkOutcome b 0%nat (Failure (tripped_error b)))
  /\ doCallback g gate now later b = Some (mkOutcome b 0%nat (Failure (tripped_error b))).
Proof.
  intros Hm Ht Hu.
  rewrite do_start_settle, doCallback_start_settle, (start_tripped_early gate now b Hm Ht Hu).
  split; reflexivity.
Qed.

Lemma rejected_call_changes_nothing_witness :
  let b := trip 0 (new_CircuitBreaker "test" options_interval50) in
  mode b = Tripped /\ 10 < lastCheck b + checkInterval b
  /\ concurrent b + 1 <= maxConcurrent b
  /\ do_ succeeding 10 10 20 b = Some (mkOutcome b 0%nat (Failure (tripped_error b)))
  /\ doCallback (@CbThrows Z "oh noes") 10 10 20 b
     = Some (mkOutcome b 0%nat (Failure (tripped_error b))).
Proof.
  intros b; split; [reflexivity|]; split; [reflexivity|].
  split; [vm_compute; discriminate|].
  apply (rejected_call_changes_nothing succeeding (CbThrows "oh noes") 10 10 20 b);
    [reflexivity | reflexivity | vm_compute; discriminate].
Defined.

(** * Further properties of the state machine *)

(** X9.  The recovery cycle.  After [trip()] at [t0], a [do] made once
    [checkInterval] has passed, within the ceiling, is the probe: its
    operation is invoked and its result delivered.  If it succeeds the
    breaker is Normal and the next call is let through at any time; if it
    fails the breaker is Tripped again, timed from the failure, and every
    call before that new interval has passed is turned away. *)
Theorem recovery_cycle {T : Type} (f : Operation T) (t0 g1 t1 t2 : Z) (b : CircuitBreaker) :
  history b <> [] -> concurrent b + 1 <= maxConcurrent b ->
  t0 + checkInterval b <= t1 ->
  exists o,
    do_ f g1 t1 t2 (trip t0 b) = Some o
    /\ invocations o = 1%nat
    /\ delivered o = result_of f
    /\ if succeeds f
       then mode (breaker o) = Normal
            /\ forall g3 t3, fst (start g3 t3 (breaker o)) = true
       else mode (breaker o) = Tripped
            /\ lastCheck (breaker o) = t2
            /\ forall g3 t3, t3 < t2 + checkInterval b ->
                             fst (start g3 t3 (breaker o)) = false.
Proof.
  intros Hne Hu Ht.
  destruct (start_lets_through g1 t1 (trip t0 b)) as (b1 & E1 & Hm1 & Hh1);
    [apply trip_mode | intros _; frame; exact Ht | frame; intros Ho; lia |].
  assert (Hne1 : history b1 <> []) by (rewrite Hh1; frame; exact Hne).
  pose proof (start_concurrent g1 t1 (trip t0 b)) as Hc1.
  assert (Hcfg : maxConcurrent b1 = maxConcurrent b /\ checkInterval b1 = checkInterval b).
  { pose proof E1 as E1'; unfold start in E1'; cbv zeta in E1'.
    destruct (addConcurrent_frame g1 (trip t0 b)) as (_ & _ & _ & Hci & Hmx & _).
    destruct (check_frame t1 (addConcurrent g1 (trip t0 b)))
      as (_ & _ & _ & Hci' & Hmx' & _).
    destruct (check t1 (addConcurrent g1 (trip t0 b))) as [[|] b2];
      cbn [negb snd] in *; [|discriminate].
    injection E1' as <-; revert Hci Hmx; frame; intros; split; congruence. }
  destruct Hcfg as (Hmx1 & Hci1).
  rewrite E1 in Hc1; cbn [fst snd] in Hc1; revert Hc1; frame; intros Hc1.
  rewrite do_start_settle, E1; unfold settle.
  destruct (succeeds f).
  - destruct (addResult_probation_success t2 b1 Hm1 Hne1) as (b2 & E2 & Hm2 & _).
    destruct (addResult_frame _ _ _ _ E2) as (_ & _ & Hc2 & _ & Hmx2 & _).
    rewrite E2; eexists; split; [reflexivity|]; split; [reflexivity|].
    split; [reflexivity|]; cbn [breaker]; split; [frame; exact Hm2|].
    intros g3 t3; rewrite start_not_tripped;
      [reflexivity | frame; congruence | frame; lia].
  - destruct (addResult_probation_failure t2 b1 Hm1 Hne1) as (b2 & E2 & Hm2 & Hl2).
    destruct (addResult_frame _ _ _ _ E2) as (_ & _ & Hc2 & Hci2 & Hmx2 & _).
    rewrite E2; eexists; split; [reflexivity|]; split; [reflexivity|].
    split; [reflexivity|]; cbn [breaker]; split; [frame; exact Hm2|].
    split; [frame; exact Hl2|].
    intros g3 t3 Ht3; rewrite start_tripped_early; [reflexivity | | |];
      frame; lia || assumption.
Qed.

Lemma recovery_cycle_witness :
  let b := new_CircuitBreaker "test" options_interval50 in
  history b <> [] /\ concurrent b + 1 <= maxConcurrent b
  /\ 0 + checkInterval b <= 50
  /\ exists o,
       do_ throwing 49 50 51 (trip 0 b) = Some o
       /\ invocations o = 1%nat
       /\ delivered o = Failure "oh noes"
       /\ mode (breaker o) = Tripped
       /\ lastCheck (breaker o) = 51
       /\ forall g3 t3, t3 < 51 + checkInterval b ->
                        fst (start g3 t3 (breaker o)) = false.
Proof.
  intros b; split; [discriminate|]; split; [vm_compute; discriminate|].
  split; [vm_compute; discriminate|].
  apply (recovery_cycle throwing 0 49 50 51 b);
    [discriminate | vm_compute; discriminate | vm_compute; discriminate].
Defined.

Lemma set_concurrent_same (b : CircuitBreaker) : set_concurrent (concurrent b) b = b.
Proof. destruct b; reflexivity. Qed.

Lemma run_starts (ts : list (Z * Z)) :
  forall b,
    mode b <> Tripped ->
    concurrent b + Z.of_nat (List.length ts) <= maxConcurrent b ->
    run (call_starts ts) b
    = Some (set_concurrent (concurrent b + Z.of_nat (List.length ts)) b).
Proof.
  induction ts as [|t ts IH]; intros b Hm Hu;
    cbn [call_starts map run step List.length] in *.
  - rewrite Z.add_0_r, set_concurrent_same; reflexivity.
  - rewrite start_not_tripped by (assumption || lia); cbn [snd].
    fold (call_starts ts); rewrite IH by (frame; assumption || lia); frame.
    unfold set_concurrent; cbn [name mode checkInterval lastCheck concurrent
      maxConcurrent history window tripRate logger logged].
    do 2 f_equal; lia.
Qed.

Lemma run_app (es1 es2 : list Event) (b : CircuitBreaker) :
  run (es1 ++ es2) b = match run es1 b with
                       | Some b1 => run es2 b1
                       | None => None
                       end.
Proof.
  revert b; induction es1 as [|e es1 IH]; intros b; cbn [app run]; [reflexivity|].
  destruct (step e b); [apply IH | reflexivity].
Qed.

(** X10.  Calls started without any of them settling are let through until
    the counter stands at [maxConcurrent].  The next one trips the gate; it
    is turned away, leaving the breaker Tripped, timed from the gate's clock
    reading, with the counter still at the ceiling and the history
    untouched, when its admission check reads the clock less than
    [checkInterval] after the gate did. *)
Theorem burst_trips (ts : list (Z * Z)) (gate now : Z) (b : CircuitBreaker) :
  mode b <> Tripped -> now < gate + checkInterval b ->
  concurrent b + Z.of_nat (List.length ts) = maxConcurrent b ->
  run (call_starts ts) b = Some (set_concurrent (maxConcurrent b) b)
  /\ exists b',
       run (call_starts (ts ++ [(gate, now)])) b = Some b'
       /\ fst (start gate now (set_concurrent (maxConcurrent b) b)) = false
       /\ mode b' = Tripped /\ lastCheck b' = gate
       /\ concurrent b' = maxConcurrent b
       /\ history b' = history b.
Proof.
  intros Hm Hci Hn.
  assert (E : run (call_starts ts) b = Some (set_concurrent (maxConcurrent b) b)).
  { rewrite run_starts by (assumption || lia); rewrite Hn; reflexivity. }
  split; [exact E|].
  unfold call_starts in *; rewrite map_app, run_app, E; cbn [map run step fst snd].
  set (b1 := set_concurrent (maxConcurrent b) b).
  assert (Es : start gate now b1
               = (false, finishedConcurrent
                           (trip gate (set_concurrent (concurrent b1 + 1) b1)))).
  { rewrite start_over by (subst b1; frame; lia).
    destruct (Z.leb_spec (gate + checkInterval b1) now); [subst b1; revert H; frame; lia|].
    reflexivity. }
  eexists; split; [reflexivity|]; rewrite Es; cbn [fst snd].
  subst b1; frame; repeat split; lia.
Qed.

Lemma burst_trips_witness :
  let b := new_CircuitBreaker "test" options_max3 in
  mode b <> Tripped /\ 4 < 3 + checkInterval b
  /\ concurrent b + Z.of_nat (List.length [(0, 0); (1, 1); (2, 2)]) = maxConcurrent b
  /\ run (call_starts [(0, 0); (1, 1); (2, 2)]) b
     = Some (set_concurrent (maxConcurrent b) b)
  /\ exists b',
       run (call_starts ([(0, 0); (1, 1); (2, 2)] ++ [(3, 4)])) b = Some b'
       /\ fst (start 3 4 (set_concurrent (maxConcurrent b) b)) = false
       /\ mode b' = Tripped /\ lastCheck b' = 3
       /\ concurrent b' = maxConcurrent b
       /\ history b' = history b.
Proof.
  intros b; split; [discriminate|]; split; [reflexivity|]; split; [reflexivity|].
  apply (burst_trips [(0, 0); (1, 1); (2, 2)] 3 4 b);
    [discriminate | reflexivity | reflexivity].
Defined.

(** * Configuration and log along a trace *)

Lemma evolves_same (b b' : CircuitBreaker) :
  same_config b b' -> logged b' = logged b -> evolves b b'.
Proof.
  intros Hc Hl; split; [exact Hc|].
  exists []; rewrite app_nil_r; auto.
Qed.

Lemma evolves_refl (b : CircuitBreaker) : evolves b b.
Proof. apply evolves_same; [repeat split | reflexivity]. Qed.

Lemma evolves_trans (b b1 b2 : CircuitBreaker) :
  evolves b b1 -> evolves b1 b2 -> evolves b b2.
Proof.
  intros ((Hn & Hmx & Hr & Hw & Hci & Hlg) & l & Hl & Hok & Hoff)
         ((Hn' & Hmx' & Hr' & Hw' & Hci' & Hlg') & l' & Hl' & Hok' & Hoff').
  split; [repeat split; congruence|].
  exists (l ++ l'); split; [rewrite Hl', Hl, app_assoc; reflexivity|]; split.
  - apply Forall_app; split; [exact Hok|]; rewrite <- Hn; exact Hok'.
  - intros Hf; rewrite (Hoff Hf), (Hoff' ltac:(congruence)); reflexivity.
Qed.

Lemma evolves_log (m : LogMessage) (b : CircuitBreaker) :
  message_ok (name b) m -> evolves b (log m b).
Proof.
  intros Hm; unfold log; destruct (logger b) eqn:Hlg; [|apply evolves_refl].
  split; [repeat split; cbn; auto|].
  exists [m]; repeat split; [constructor; [exact Hm|constructor] | congruence].
Qed.

Lemma evolves_set_mode (m : Mode) (b : CircuitBreaker) : evolves b (set_mode m b).
Proof. apply evolves_same; [repeat split | reflexivity]. Qed.

Lemma evolves_set_history (h : list Z) (b : CircuitBreaker) : evolves b (set_history h b).
Proof. apply evolves_same; [repeat split | reflexivity]. Qed.

Lemma evolves_set_concurrent (c : Z) (b : CircuitBreaker) : evolves b (set_concurrent c b).
Proof. apply evolves_same; [repeat split | reflexivity]. Qed.

Lemma evolves_set_lastCheck (t : Z) (b : CircuitBreaker) : evolves b (set_lastCheck t b).
Proof. apply evolves_same; [repeat split | reflexivity]. Qed.

Lemma evolves_trip (now : Z) (b : CircuitBreaker) : evolves b (trip now b).
Proof.
  unfold trip; cbv zeta.
  eapply evolves_trans; [apply evolves_set_mode|].
  eapply evolves_trans; [apply evolves_set_lastCheck|].
  apply evolves_log; cbn; auto.
Qed.

Lemma evolves_clear (b : CircuitBreaker) : evolves b (clear b).
Proof.
  unfold clear; eapply evolves_trans; [apply evolves_set_history | apply evolves_set_mode].
Qed.

Lemma evolves_addConcurrent (now : Z) (b : CircuitBreaker) : evolves b (addConcurrent now b).
Proof.
  unfold addConcurrent; cbv zeta.
  eapply evolves_trans; [apply (evolves_set_concurrent (concurrent b + 1))|].
  destruct (_ >? _); [apply evolves_trip | apply evolves_refl].
Qed.

Lemma evolves_check (now : Z) (b : CircuitBreaker) : evolves b (snd (check now b)).
Proof.
  unfold check; destruct (mode b); cbn [snd]; try apply evolves_refl.
  destruct (_ <=? _); cbn [snd]; [apply evolves_set_mode | apply evolves_refl].
Qed.

Lemma evolves_finishedConcurrent (b : CircuitBreaker) : evolves b (finishedConcurrent b).
Proof. apply evolves_set_concurrent. Qed.

Lemma evolves_start (gate now : Z) (b : CircuitBreaker) : evolves b (snd (start gate now b)).
Proof.
  unfold start; cbv zeta.
  pose proof (evolves_check now (addConcurrent gate b)) as Hc.
  destruct (check now (addConcurrent gate b)) as [[|] b2]; cbn [negb snd] in *.
  - eapply evolves_trans; [apply evolves_addConcurrent | exact Hc].
  - eapply evolves_trans; [apply evolves_addConcurrent|].
    eapply evolves_trans; [exact Hc | apply evolves_finishedConcurrent].
Qed.

Lemma Mode_eqb_eq (a b : Mode) : Mode_eqb a b = true -> a = b.
Proof. destruct a, b; cbn; congruence. Qed.

Lemma evolves_addResult (r now : Z) (b b' : CircuitBreaker) :
  addResult r now b = Some b' -> evolves b b'.
Proof.
  unfold addResult.
  destruct (record_result r (history b)) as [h|]; [|discriminate].
  pose proof (evolves_set_history h b) as Hh.
  destruct ((r >? 0) && Mode_eqb (mode (set_history h b)) Probation) eqn:Hreset.
  - intros [= <-].
    apply andb_true_iff in Hreset; destruct Hreset as (_ & Hp); apply Mode_eqb_eq in Hp.
    eapply evolves_trans; [exact Hh|].
    eapply evolves_trans; [|apply evolves_set_mode].
    apply evolves_log; split; [reflexivity | exact Hp].
  - destruct (r <? 0);
      [destruct (Mode_eqb (mode (set_history h b)) Probation
                 || JS.lt (successRate (set_history h b)) (tripRate (set_history h b)))|];
      intros [= <-]; try exact Hh.
    eapply evolves_trans; [exact Hh | apply evolves_trip].
Qed.

Lemma evolves_step (e : Event) (b b' : CircuitBreaker) :
  step e b = Some b' -> evolves b b'.
Proof.
  destruct e as [gate now | success now | | now | now]; cbn [step].
  - intros [= <-]; apply evolves_start.
  - unfold settle; destruct (addResult _ now b) as [b1|] eqn:E; [|discriminate].
    intros [= <-]; eapply evolves_trans;
      [eapply evolves_addResult; exact E | apply evolves_finishedConcurrent].
  - intros [= <-]; apply evolves_clear.
  - intros [= <-]; apply evolves_trip.
  - intros [= <-]; apply evolves_check.
Qed.

Lemma evolves_run (es : list Event) :
  forall b b', run es b = Some b' -> evolves b b'.
Proof.
  induction es as [|e es IH]; intros b b'; cbn [run].
  - intros [= <-]; apply evolves_refl.
  - destruct (step e b) as [b1|] eqn:E; [|discriminate].
    intros Hr; eapply evolves_trans; [eapply evolves_step; exact E | apply IH; exact Hr].
Qed.

(** X11.  No method writes the configuration: after any trace on a
    well-formed breaker the name, [maxConcurrent], [tripRate], [window],
    [checkInterval] and the logger are those the constructor set. *)
Theorem configuration_is_immutable (es : list Event) (b : CircuitBreaker) :
  well_formed b ->
  exists b', run es b = Some b'
             /\ name b' = name b /\ maxConcurrent b' = maxConcurrent b
             /\ tripRate b' = tripRate b /\ window b' = window b
             /\ checkInterval b' = checkInterval b /\ logger b' = logger b.
Proof.
  intros Hwf; destruct (run_well_formed es b Hwf) as (b' & E & _).
  exists b'; split; [exact E|].
  apply (evolves_run es b b' E).
Qed.

Lemma configuration_is_immutable_witness :
  let b := new_CircuitBreaker "test" options_max3 in
  let es := [CallStart 0 0; CallStart 1 1; CallStart 2 2; CallStart 3 3; CallSettle false 4;
             CallClear; CallTrip 5; CallCheck 60] in
  well_formed b
  /\ exists b', run es b = Some b'
                /\ name b' = name b /\ maxConcurrent b' = maxConcurrent b
                /\ tripRate b' = tripRate b /\ window b' = window b
                /\ checkInterval b' = checkInterval b /\ logger b' = logger b.
Proof.
  intros b es.
  assert (Hwf : well_formed b) by (split; reflexivity).
  split; [exact Hwf|].
  apply (configuration_is_immutable es b Hwf).
Defined.

(** X12.  Along any trace on a well-formed breaker the log only grows, and
    only by messages of the two kinds: a trip message rendering the
    breaker's name and the mode Tripped, or a reset message rendering the
    name and the mode Probation (it is written before the mode becomes
    Normal).  Without a logger nothing is logged. *)
Theorem log_only_grows (es : list Event) (b : CircuitBreaker) :
  well_formed b ->
  exists b' l,
    run es b = Some b'
    /\ logged b' = logged b ++ l
    /\ Forall (message_ok (name b)) l
    /\ (logger b = false -> l = []).
Proof.
  intros Hwf; destruct (run_well_formed es b Hwf) as (b' & E & _).
  destruct (evolves_run es b b' E) as (_ & l & Hl & Hok & Hoff).
  exists b', l; auto.
Qed.

Lemma log_only_grows_witness :
  let b := new_CircuitBreaker "test" (mkOptions None None None (Some 50) true) in
  let es := [CallTrip 0; CallStart 50 50; CallSettle true 51] in
  well_formed b
  /\ exists b' l,
       run es b = Some b'
       /\ logged b' = logged b ++ l
       /\ Forall (message_ok (name b)) l
       /\ (logger b = false -> l = []).
Proof.
  intros b es.
  assert (Hwf : well_formed b) by (split; reflexivity).
  split; [exact Hwf|].
  apply (log_only_grows es b Hwf).
Defined.

(** * Failures in a row *)

Lemma failures_history_step (w k : Z) :
  0 < w -> 0 <= k ->
  record_result (-1) (failures_history w k) = Some (failures_history w (k + 1)).
Proof.
  intros Hw Hk; unfold failures_history.
  destruct (Z.eqb_spec (k + 1) 0); [lia|].
  destruct (Z.eqb_spec k 0) as [Hk0 | Hk0];
    [|destruct (Z.ltb_spec k w)];
    destruct (Z.ltb_spec (k + 1) w);
    unfold record_result, push_newest; cbn [List.last removelast app];
    change (-1 <? 0) with true; change (-1 >? 0) with false;
    rewrite ?andb_true_r, ?andb_false_r, ?orb_false_r, ?Z.gtb_ltb;
    repeat match goal with
           | |- context [?a <? ?c] => destruct (Z.ltb_spec a c); try lia
           end;
    cbn [drop_oldest];
    repeat match goal with
           | |- context [?a <? ?c] => destruct (Z.ltb_spec a c); try lia
           | |- context [?a =? ?c] => destruct (Z.eqb_spec a c); try lia
           end;
    repeat match goal with
           | |- Some _ = Some _ => f_equal
           | |- _ :: _ = _ :: _ => f_equal; try lia
           end.
Qed.

Lemma failures_history_ok (w k : Z) :
  0 < w -> 0 <= k -> history_ok w (failures_history w k) = true.
Proof.
  intros Hw Hk; unfold failures_history.
  destruct (Z.eqb_spec k 0); [|destruct (Z.ltb_spec k w)];
    apply history_ok_iff; cbn [magnitude forallb alternating]; unfold nonzero;
    repeat split; try lia;
    repeat match goal with
           | |- context [?a =? ?c] => destruct (Z.eqb_spec a c); try lia
           end; reflexivity.
Qed.

Lemma failures_history_positives (w k : Z) :
  0 < w -> 0 <= k -> positives (failures_history w k) = Z.max 0 (w - k).
Proof.
  intros Hw Hk; unfold failures_history.
  destruct (Z.eqb_spec k 0); [|destruct (Z.ltb_spec k w)]; cbn [positives];
    repeat match goal with
           | |- context [?a <? ?c] => destruct (Z.ltb_spec a c); try lia
           end.
Qed.

Lemma lt_div_monotone (a a' w : Z) (r : Q) :
  0 < w -> a <= a' ->
  JS.lt (JS.div a' w) r = true -> JS.lt (JS.div a w) r = true.
Proof.
  intros Hw Ha; destruct w as [|p|p]; try lia; cbn [JS.div JS.lt].
  rewrite !negb_true_iff; intros Hlt.
  destruct (Qle_bool r (Qred (a # p))) eqn:E; [|reflexivity].
  apply Qle_bool_iff in E; rewrite Qred_correct in E.
  assert (Hle : (r <= Qred (a' # p))%Q).
  { rewrite Qred_correct; eapply Qle_trans; [exact E|].
    unfold Qle; cbn [Qnum Qden]; nia. }
  apply Qle_bool_iff in Hle; congruence.
Qed.

Lemma trip_tripRate (now : Z) (b : CircuitBreaker) : tripRate (trip now b) = tripRate b.
Proof. unfold trip; cbv zeta; rewrite log_tripRate; reflexivity. Qed.

Lemma run_failures (ts : list Z) (b : CircuitBreaker) :
  0 < window b ->
  exists b', run (map (CallSettle false) ts) (clear b) = Some b'
             /\ history b' = failures_history (window b) (Z.of_nat (List.length ts))
             /\ mode b' = failures_mode (window b) (tripRate b) (Z.of_nat (List.length ts))
             /\ window b' = window b /\ tripRate b' = tripRate b.
Proof.
  intros Hw; induction ts as [|t ts IH] using rev_ind.
  - exists (clear b); repeat split.
  - destruct IH as (b1 & E1 & Hh1 & Hm1 & Hw1 & Hr1).
    rewrite map_app, run_app, E1, length_app, Nat2Z.inj_add.
    cbn [map run step List.length]; change (Z.of_nat 1) with 1.
    set (k := Z.of_nat (List.length ts)) in *.
    assert (Hk : 0 <= k) by (subst k; lia).
    pose proof (failures_history_step (window b) k Hw Hk) as Hstep; rewrite <- Hh1 in Hstep.
    assert (Hrate : successRate (set_history (failures_history (window b) (k + 1)) b1)
                    = JS.div (Z.max 0 (window b - (k + 1))) (window b)).
    { rewrite successRate_well_formed.
      - cbn [set_history history window]; rewrite Hw1, failures_history_positives by lia.
        reflexivity.
      - split; cbn [set_history history window]; rewrite Hw1;
          [exact Hw | apply failures_history_ok; lia]. }
    assert (Hpos : (0 <? k + 1) = true) by (apply Z.ltb_lt; lia).
    unfold failures_mode in Hm1.
    destruct ((0 <? k) && JS.lt (JS.div (Z.max 0 (window b - k)) (window b)) (tripRate b))
      eqn:Hprev.
    + (* already tripped: it stays tripped *)
      assert (Hne : history b1 <> []) by (intros Hnil; rewrite Hnil in Hstep; discriminate).
      destruct (addResult_tripped_failure t b1 Hm1 Hne) as (h & b2 & Eh & E2 & Hm2 & _).
      rewrite Eh in Hstep; injection Hstep as ->.
      destruct (addResult_frame _ _ _ _ E2) as (Hh2 & Hw2 & _).
      destruct (evolves_addResult _ _ _ _ E2) as ((_ & _ & Hr2 & _) & _).
      unfold settle; rewrite E2; eexists; split; [reflexivity|]; frame.
      rewrite Eh in Hh2; injection Hh2 as <-.
      repeat split; try congruence.
      rewrite Hm2; unfold failures_mode; rewrite Hpos; cbn [andb].
      apply andb_true_iff in Hprev; destruct Hprev as (_ & Hlt).
      assert (Hle : Z.max 0 (window b - (k + 1)) <= Z.max 0 (window b - k)) by lia.
      rewrite (lt_div_monotone _ _ _ _ Hw Hle Hlt); reflexivity.
    + unfold settle; rewrite (addResult_normal_failure t b1 _ Hm1 Hstep), Hrate, Hr1.
      eexists; split; [reflexivity|]; unfold failures_mode; rewrite Hpos; cbn [andb].
      destruct (JS.lt (JS.div (Z.max 0 (window b - (k + 1))) (window b)) (tripRate b));
        frame; rewrite ?trip_tripRate; frame; repeat split; congruence.
Qed.

(** X13.  On a freshly cleared breaker of window [w], [k] failures in a row
    leave the history [[w - k; -k]] while [k < w] and [[-w]] from then on,
    and the breaker is Tripped exactly when the rate [(w - k) / w] (0 once
    the window holds only failures) is below [tripRate]. *)
Theorem consecutive_failures (ts : list Z) (b : CircuitBreaker) :
  0 < window b ->
  exists b', run (map (CallSettle false) ts) (clear b) = Some b'
             /\ history b' = failures_history (window b) (Z.of_nat (List.length ts))
             /\ mode b' = failures_mode (window b) (tripRate b) (Z.of_nat (List.length ts)).
Proof.
  intros Hw; destruct (run_failures ts b Hw) as (b' & E & Hh & Hm & _).
  exists b'; auto.
Qed.

Lemma consecutive_failures_witness :
  let b := new_CircuitBreaker "test" options_window5 in
  0 < window b
  /\ exists b', run (map (CallSettle false) [1; 2; 3]) (clear b) = Some b'
                /\ history b' = [2; -3]
                /\ mode b' = Tripped.
Proof.
  intros b; split; [reflexivity|].
  apply (consecutive_failures [1; 2; 3] b); reflexivity.
Defined.

(** * The admission check on its own *)

(** X14.  [check()] refuses exactly in Tripped mode before the interval has
    passed, and then changes nothing; once it has answered yes it goes on
    answering yes, at any time, without changing anything further. *)
Theorem check_is_idempotent (t : Z) (b : CircuitBreaker) :
  (fst (check t b) = false <->
   mode b = Tripped /\ t < lastCheck b + checkInterval b)
  /\ (fst (check t b) = false -> snd (check t b) = b)
  /\ (fst (check t b) = true ->
      forall t', check t' (snd (check t b)) = (true, snd (check t b))).
Proof.
  unfold check; destruct (mode b) eqn:Hm.
  - cbn [fst snd]; repeat split; try discriminate; try tauto.
    + intros (Hc & _); discriminate.
    + intros _ t'; rewrite Hm; reflexivity.
  - destruct (Z.leb_spec (lastCheck b + checkInterval b) t); cbn [fst snd].
    + repeat split; try discriminate; try lia.
    + repeat split; try discriminate; try lia; auto.
  - cbn [fst snd]; repeat split; try discriminate; try tauto.
    + intros (Hc & _); discriminate.
    + intros _ t'; rewrite Hm; reflexivity.
Qed.

Lemma check_is_idempotent_witness :
  let b := trip 0 (new_CircuitBreaker "test" options_interval50) in
  fst (check 50 b) = true
  /\ forall t', check t' (snd (check 50 b)) = (true, snd (check 50 b)).
Proof.
  intros b; split; [reflexivity|].
  apply (proj2 (proj2 (check_is_idempotent 50 b))); reflexivity.
Defined.

(** * A fresh breaker *)

(** X15.  Whatever the name and the options, a breaker constructed with a
    positive window describes itself as Normal, with success rate 1 and no
    call in flight. *)
Theorem fresh_breaker_description (nm : string) (o : CircuitBreakerOptions) :
  0 < window (new_CircuitBreaker nm o) ->
  toString (new_CircuitBreaker nm o) = mkDescription nm Normal (JS.Finite 1) 0.
Proof.
  intros Hw; unfold toString.
  rewrite (successRate_well_formed _ (new_well_formed nm o Hw)).
  unfold new_CircuitBreaker in *; cbn [clear set_mode set_history history window
    positives name mode concurrent] in *.
  match goal with
  | |- context [if ?w <? 0 then _ else _] => destruct (Z.ltb_spec w 0); [lia|]
  end.
  rewrite Z.add_0_r, div_self by exact Hw; reflexivity.
Qed.

Lemma fresh_breaker_description_witness :
  0 < window (new_CircuitBreaker "test" no_options)
  /\ toString (new_CircuitBreaker "test" no_options)
     = mkDescription "test" Normal (JS.Finite 1) 0.
Proof.
  split; [reflexivity|].
  apply (fresh_breaker_description "test" no_options); reflexivity.
Defined.

Lemma record_success_full (w : Z) : 0 < w -> record_result 1 [w] = Some [w].
Proof.
  intros Hw; unfold record_result, push_newest; cbn [List.last removelast app].
  change (1 <? 0) with false; change (1 >? 0) with true.
  rewrite andb_false_r, andb_true_r, orb_false_l.
  destruct (Z.ltb_spec w 0); [lia|]; cbn [drop_oldest].
  destruct (Z.ltb_spec (w + 1) 0); [lia|].
  destruct (Z.eqb_spec (w + 1 - 1) 0); [lia|].
  do 2 f_equal; lia.
Qed.

(** X16.  Successes bank no margin: however many successes a freshly
    cleared breaker records, its history stays the single run [[window]]
    and its mode Normal, so the next failure counts as on a fresh breaker. *)
Theorem successes_bank_nothing (ts : list Z) (b : CircuitBreaker) :
  0 < window b ->
  exists b', run (map (CallSettle true) ts) (clear b) = Some b'
             /\ history b' = [window b] /\ mode b' = Normal
             /\ lastCheck b' = lastCheck b.
Proof.
  intros Hw.
  assert (Hgen : forall b0, history b0 = [window b] -> mode b0 = Normal ->
                   exists b', run (map (CallSettle true) ts) b0 = Some b'
                              /\ history b' = [window b] /\ mode b' = Normal
                              /\ lastCheck b' = lastCheck b0).
  { induction ts as [|t ts IH]; intros b0 Hh Hm; cbn [map run step].
    - exists b0; auto.
    - assert (E : record_result 1 (history b0) = Some [window b])
        by (rewrite Hh; apply record_success_full; exact Hw).
      unfold settle; rewrite (addResult_normal_success t b0 _ Hm E).
      destruct (IH (finishedConcurrent (set_history [window b] b0))) as (b' & E' & H');
        [reflexivity | exact Hm |].
      exists b'; split; [exact E' | exact H']. }
  apply (Hgen (clear b)); reflexivity.
Qed.

Lemma successes_bank_nothing_witness :
  let b := new_CircuitBreaker "test" options_window5 in
  0 < window b
  /\ exists b', run (map (CallSettle true) [1; 2; 3; 4; 5; 6; 7]) (clear b) = Some b'
                /\ history b' = [window b] /\ mode b' = Normal
                /\ lastCheck b' = lastCheck b.
Proof.
  intros b; split; [reflexivity|].
  apply (successes_bank_nothing [1; 2; 3; 4; 5; 6; 7] b); reflexivity.
Defined.
